(** * A duplicate-counting binary search tree, its in-order iterator and
      its pooled node allocator

    Shallow embedding of the three "versions" of [BSTree] (Tree.cpp /
    Tree.h) and of [Memory_Pool] / [BSTree_Allocator]
    (BSTree_Allocator.h).

    Conventions of the embedding.
    - The element type [T] of the template is instantiated at a signed
      integer type; the tree only ever compares elements ([<], [>], [==])
      and copies them, so elements are modelled as [Z] and [T()] is [0].
    - [size_t] fields are [Z] values kept in [0 .. 2^64-1]; [++] and [--] on
      them are written with their wrap-around ([size_t_wrap]).
    - A [Node*] owns the node it points to and nothing is shared between
      two nodes, so a pointer is modelled by the tree it points to:
      [nullptr] or [Node data_ left_ right_ count_].
    - A member function that assigns to fields of [*this] returns the new
      object; one that can throw returns an [outcome] together with the
      object as the call leaves it.
    - [operator new] is assumed to succeed ([std::bad_alloc] out of storage
      exhaustion is not modelled). *)

From Stdlib Require Import ZArith List Bool Lia Sorted.
From stdpp Require Import base list.
Import ListNotations.

Local Open Scope Z_scope.

(** ** Elements, counters, outcomes *)

Definition T : Type := Z.

(** [T()], the value-initialised element. *)
Definition T_default : T := 0.

Definition SIZE_MAX : Z := 2 ^ 64 - 1.

(** Arithmetic on [size_t] is modulo [2^64]. *)
Definition size_t_wrap (z : Z) : Z := z mod 2 ^ 64.

(** What an exception reports (the [what()] text of the sources, by meaning). *)
Inductive what : Type :=
| empty_value            (* Insert: the value is empty or zero *)
| element_not_found      (* Remove: the element is not in the tree *)
| recursion_too_deep     (* Insert: recursion too deep *)
| iteration_beyond_tree  (* operator++: iteration beyond the tree *)
| zero_block_count       (* Memory_Pool: block count must be greater than 0 *)
| null_deallocate.       (* Memory_Pool: cannot deallocate a null pointer *)

(** The exception classes thrown by the sources. *)
Inductive exn : Type :=
| invalid_argument (w : what)
| runtime_error (w : what)
| out_of_range (w : what)
| bad_alloc.

(** How a call ends. *)
Inductive outcome (A : Type) : Type :=
| Ret (a : A)        (* normal return *)
| Throw (e : exn)    (* an exception reaches the caller *)
| Undefined          (* undefined behaviour: access through a null or wild pointer *)
| Terminate.         (* an exception leaves a noexcept function: std::terminate *)

Arguments Ret {A} a.
Arguments Throw {A} e.
Arguments Undefined {A}.
Arguments Terminate {A}.

Definition obind {A B : Type} (m : outcome A) (k : A -> outcome B) : outcome B :=
  match m with
  | Ret a => k a
  | Throw e => Throw e
  | Undefined => Undefined
  | Terminate => Terminate
  end.

Notation "'let*' x ':=' m 'in' k" := (obind m (fun x => k))
  (at level 10, x name, m at level 100, k at level 200).

(** ** Nodes and the tree object *)

(** [class Node { T data_; Node *left_; Node *right_; size_t count_; }] seen
    through an owning [Node*]. *)
Inductive NodePtr : Type :=
| nullptr
| Node (data_ : T) (left_ right_ : NodePtr) (count_ : Z).

(** [Node(T value) : data_(value), left_(nullptr), right_(nullptr), count_(0)] *)
Definition new_Node (value : T) : NodePtr := Node value nullptr nullptr 0.

Record BSTree : Type := mkBSTree {
  root_ : NodePtr;
  duplicate_elements_count_ : Z;
  total_elements_count_ : Z
}.

(** [BSTree() : root_(nullptr), duplicate_elements_count_(0), total_elements_count_(0)] *)
Definition BSTree_new : BSTree := mkBSTree nullptr 0 0.

Definition set_root (t : BSTree) (r : NodePtr) : BSTree :=
  mkBSTree r (duplicate_elements_count_ t) (total_elements_count_ t).

(** ** Private member functions shared by every version *)

(** [bool Search(Node *node, T value) const] *)
Fixpoint Search_node (node : NodePtr) (value : T) : bool :=
  match node with
  | nullptr => false
  | Node d l r _ =>
      if d =? value then true
      else if value <? d then Search_node l value
      else Search_node r value
  end.

(** [Node* Find_min(Node *node) const]: follows [left_] while it is not null.
    The loop reads [node->left_] first, so a null argument is undefined. *)
Fixpoint Find_min (node : NodePtr) : outcome NodePtr :=
  match node with
  | nullptr => Undefined
  | Node _ l _ _ =>
      match l with
      | nullptr => Ret node
      | Node _ _ _ _ => Find_min l
      end
  end.

(** [Node* Remove(Node *node, T value)].  The member
    [total_elements_count_] is written during the descent, so it is threaded
    through: the result is the returned pointer and the new counter.

    On a match with [count_ <= 1] the function executes
    [delete node; return temp;] where [temp] is [right_] when [left_] is
    null, [left_] when only [right_] is null, and stays [nullptr] when
    neither is.  The statements that follow that [return] in the source
    ([Find_min] on the right subtree, copy of its value and counter, removal
    of it from the right subtree) are never reached and therefore have no
    counterpart here. *)
Fixpoint Remove_node (node : NodePtr) (value : T) (total : Z) : NodePtr * Z :=
  match node with
  | nullptr => (nullptr, total)
  | Node d l r c =>
      if value <? d then
        let '(l', total') := Remove_node l value total in
        (Node d l' r c, total')
      else if value >? d then
        let '(r', total') := Remove_node r value total in
        (Node d l r' c, total')
      else if c >? 1 then
        (Node d l r (size_t_wrap (c - 1)), size_t_wrap (total - 1))
      else
        let total' := size_t_wrap (total - 1) in
        let temp :=
          match l with
          | nullptr => r
          | Node _ _ _ _ =>
              match r with
              | nullptr => l
              | Node _ _ _ _ => nullptr
              end
          end in
        (temp, total')
  end.

(** [Node* Copy(Node *node)]: a fresh node per source node. *)
Fixpoint Copy (node : NodePtr) : NodePtr :=
  match node with
  | nullptr => nullptr
  | Node d l r c =>
      (* new Node(node->data_), then left_, right_ and count_ are assigned *)
      Node d (Copy l) (Copy r) c
  end.

(** [void Inorder(Node *node) const]: the values written to the output
    stream, in order (the source spells the right child [rigth_] here). *)
Fixpoint Inorder (node : NodePtr) : list T :=
  match node with
  | nullptr => []
  | Node d l r _ => Inorder l ++ d :: Inorder r
  end.

(** Observers used in statements (not in the sources). *)

Fixpoint node_count (node : NodePtr) : nat :=
  match node with
  | nullptr => O
  | Node _ l r _ => S (node_count l + node_count r)
  end.

(** The duplicate counter stored at the node holding [value], if any. *)
Fixpoint count_of (node : NodePtr) (value : T) : option Z :=
  match node with
  | nullptr => None
  | Node d l r c =>
      if d =? value then Some c
      else if value <? d then count_of l value
      else count_of r value
  end.

(** The search-tree ordering: everything in the left subtree is smaller
    than the node's value and everything in the right subtree is larger. *)
Fixpoint bst (node : NodePtr) : Prop :=
  match node with
  | nullptr => True
  | Node d l r _ =>
      Forall (fun x => x < d) (Inorder l) /\
      Forall (fun x => d < x) (Inorder r) /\
      bst l /\ bst r
  end.

(** ** Version 1: simple realisation *)

Module V1.

(** [Node* Insert(Node *node, T value)] *)
Fixpoint Insert_node (node : NodePtr) (value : T) : NodePtr :=
  match node with
  | nullptr => new_Node value
  | Node d l r c =>
      if value <? d then Node d (Insert_node l value) r c
      else if value >? d then Node d l (Insert_node r value) c
      else Node d l r (size_t_wrap (c + 1))
  end.

(** [void Insert(T value) { root_ = Insert(root_, value); }] *)
Definition Insert (t : BSTree) (value : T) : BSTree :=
  set_root t (Insert_node (root_ t) value).

(** [bool Search(T value) const] *)
Definition Search (t : BSTree) (value : T) : bool :=
  Search_node (root_ t) value.

(** [void Remove(T value) { root_ = Remove(root_, value); }] *)
Definition Remove (t : BSTree) (value : T) : BSTree :=
  let '(r, total) := Remove_node (root_ t) value (total_elements_count_ t) in
  mkBSTree r (duplicate_elements_count_ t) total.

(** [void Print_in_order() const] *)
Definition Print_in_order (t : BSTree) : list T := Inorder (root_ t).

(** Calls a client can make on one tree object. *)
Inductive op : Type :=
| OpInsert (value : T)
| OpSearch (value : T)
| OpRemove (value : T).

Definition step (t : BSTree) (o : op) : BSTree :=
  match o with
  | OpInsert v => Insert t v
  | OpSearch _ => t
  | OpRemove v => Remove t v
  end.

Definition run (ops : list op) (t : BSTree) : BSTree := fold_left step ops t.

Definition Insert_all (values : list T) (t : BSTree) : BSTree :=
  fold_left Insert values t.

(** How many [Insert] calls a sequence makes, and how many of its [Remove]
    calls find their value in the tree as it is when they are made. *)
Fixpoint inserts (ops : list op) : Z :=
  match ops with
  | [] => 0
  | o :: rest =>
      (match o with
       | OpInsert _ => 1
       | _ => 0
       end) + inserts rest
  end.

Fixpoint removes_found (ops : list op) (t : BSTree) : Z :=
  match ops with
  | [] => 0
  | o :: rest =>
      (match o with
       | OpRemove v => if Search t v then 1 else 0
       | _ => 0
       end) + removes_found rest (step t o)
  end.

(** [k] successive calls [Insert(value)], then [k] successive calls
    [Remove(value)]. *)
Definition Insert_times (k : nat) (value : T) (t : BSTree) : BSTree :=
  Nat.iter k (fun t' => Insert t' value) t.

Definition Remove_times (k : nat) (value : T) (t : BSTree) : BSTree :=
  Nat.iter k (fun t' => Remove t' value) t.

End V1.

(** ** Version 2: error handling *)

Module V2.

(** [const size_t MAX_DEPTH = 1000;] *)
Definition MAX_DEPTH : Z := 1000.

(** [Node* Insert(Node *node, T value, size_t depth = 0)].  Both recursive
    calls are written [Insert(node->left_, value)] and
    [Insert(node->right_, value)]: they pass no third argument, so [depth]
    takes its default [0] in each of them. *)
Fixpoint Insert_node (node : NodePtr) (value : T) (depth : Z) : outcome NodePtr :=
  if depth >? MAX_DEPTH then Throw (runtime_error recursion_too_deep)
  else
    match node with
    | nullptr => Ret (new_Node value)
    | Node d l r c =>
        if value <? d then
          let* l' := Insert_node l value 0 in Ret (Node d l' r c)
        else if value >? d then
          let* r' := Insert_node r value 0 in Ret (Node d l r' c)
        else Ret (Node d l r (size_t_wrap (c + 1)))
    end.

(** [void Insert(T value)]: the sentinel check, then
    [root_ = Insert(root_, value)].  When the private [Insert] throws,
    [root_] is not assigned; the private function writes to a node only
    after the recursive call below it has returned, so nothing was written
    before the throw either. *)
Definition Insert (t : BSTree) (value : T) : outcome unit * BSTree :=
  if value =? T_default then (Throw (invalid_argument empty_value), t)
  else
    match Insert_node (root_ t) value 0 with
    | Ret r => (Ret tt, set_root t r)
    | Throw e => (Throw e, t)
    | Undefined => (Undefined, t)
    | Terminate => (Terminate, t)
    end.

Definition Search (t : BSTree) (value : T) : bool :=
  Search_node (root_ t) value.

(** [void Remove(T value)]: throws when [Search(value)] is false, before
    [root_ = Remove(root_, value)]. *)
Definition Remove (t : BSTree) (value : T) : outcome unit * BSTree :=
  if negb (Search t value) then (Throw (runtime_error element_not_found), t)
  else
    let '(r, total) := Remove_node (root_ t) value (total_elements_count_ t) in
    (Ret tt, mkBSTree r (duplicate_elements_count_ t) total).

(** The copy constructor (as in the allocator version, which passes
    [other.root_] to [Copy]): every field is taken from [other]. *)
Definition BSTree_copy (other : BSTree) : BSTree :=
  mkBSTree (Copy (root_ other))
           (duplicate_elements_count_ other)
           (total_elements_count_ other).

(** The move constructor: the new object and the moved-from one. *)
Definition BSTree_move (temp : BSTree) : BSTree * BSTree :=
  (mkBSTree (root_ temp) (duplicate_elements_count_ temp) (total_elements_count_ temp),
   set_root temp nullptr).

Inductive op : Type :=
| OpInsert (value : T)
| OpSearch (value : T)
| OpRemove (value : T).

(** One call; a caller that catches the exception goes on with the object
    as the call left it. *)
Definition step (t : BSTree) (o : op) : BSTree :=
  match o with
  | OpInsert v => snd (Insert t v)
  | OpSearch _ => t
  | OpRemove v => snd (Remove t v)
  end.

Definition run (ops : list op) (t : BSTree) : BSTree := fold_left step ops t.

(** Successive [Insert] calls, stopping at the first that does not return. *)
Fixpoint Insert_all (values : list T) (t : BSTree) : outcome unit * BSTree :=
  match values with
  | [] => (Ret tt, t)
  | v :: rest =>
      match Insert t v with
      | (Ret _, t') => Insert_all rest t'
      | (o, t') => (o, t')
      end
  end.

(** The values [1, 2, ..., n], in that order. *)
Definition ascending (n : nat) : list T := map Z.of_nat (seq 1 n).

(** Number of nested calls the private [Insert] makes below the first one
    when it is given [node] and [value]. *)
Fixpoint descent_depth (node : NodePtr) (value : T) : Z :=
  match node with
  | nullptr => 0
  | Node d l r _ =>
      if value <? d then 1 + descent_depth l value
      else if value >? d then 1 + descent_depth r value
      else 0
  end.

End V2.

(** ** The traversal iterator *)

(** [std::stack<Node*> Node_Stack] (top first) and [Node *current_]. *)
Record Tree_Iterator : Type := mkIter {
  Node_Stack : list NodePtr;
  current_ : NodePtr
}.

(** [void Push_left(Node *node)]: pushes [node] and every node down its
    left spine. *)
Fixpoint Push_left (node : NodePtr) (stack : list NodePtr) : list NodePtr :=
  match node with
  | nullptr => stack
  | Node _ l _ _ => Push_left l (node :: stack)
  end.

(** [Tree_Iterator() : current_(nullptr)] *)
Definition Tree_Iterator_default : Tree_Iterator := mkIter [] nullptr.

(** [Tree_Iterator(Node *node)] *)
Definition Tree_Iterator_from (node : NodePtr) : Tree_Iterator :=
  match Push_left node (Node_Stack Tree_Iterator_default) with
  | top :: rest => mkIter rest top
  | [] => mkIter [] (current_ Tree_Iterator_default)
  end.

(** [reference operator*() const { return current_->data_; }] *)
Definition deref (it : Tree_Iterator) : outcome T :=
  match current_ it with
  | nullptr => Undefined
  | Node d _ _ _ => Ret d
  end.

(** [Tree_Iterator& operator++()] *)
Definition incr (it : Tree_Iterator) : outcome Tree_Iterator :=
  match current_ it with
  | nullptr => Throw (out_of_range iteration_beyond_tree)
  | Node _ _ r _ =>
      let stack :=
        match r with
        | nullptr => Node_Stack it
        | Node _ _ _ _ => Push_left r (Node_Stack it)
        end in
      match stack with
      | top :: rest => Ret (mkIter rest top)
      | [] => Ret (mkIter [] nullptr)
      end
  end.

(** [begin()] and [end()] *)
Definition begin_ (t : BSTree) : Tree_Iterator := Tree_Iterator_from (root_ t).
Definition end_ (t : BSTree) : Tree_Iterator := Tree_Iterator_from nullptr.

(** [it == end()]: [end()] holds a null [current_], and [operator==]
    compares the two [current_] pointers. *)
Definition is_end (it : Tree_Iterator) : bool :=
  match current_ it with
  | nullptr => true
  | Node _ _ _ _ => false
  end.

(** The client loop [for (it = start; it != end(); ++it) visit( *it );]
    run for at most [fuel] rounds; [None] when the fuel does not suffice or
    a call in the body does not return. *)
Fixpoint traverse (fuel : nat) (it : Tree_Iterator) : option (list T) :=
  if is_end it then Some []
  else
    match fuel with
    | O => None
    | S fuel' =>
        match deref it, incr it with
        | Ret d, Ret it' =>
            match traverse fuel' it' with
            | Some ds => Some (d :: ds)
            | None => None
            end
        | _, _ => None
        end
    end.

(** What is still to be visited once [node] has been pushed: its own value
    and its right subtree. *)
Definition node_rest (node : NodePtr) : list T :=
  match node with
  | nullptr => []
  | Node d _ r _ => d :: Inorder r
  end.

Definition stack_values (stack : list NodePtr) : list T := flat_map node_rest stack.

(** The values an iterator has yet to yield. *)
Definition iter_values (it : Tree_Iterator) : list T :=
  node_rest (current_ it) ++ stack_values (Node_Stack it).

Definition non_null (node : NodePtr) : Prop := node <> nullptr.

(** States the iterator is in between calls: no null pointer is ever on the
    stack, and the stack is empty once [current_] is null. *)
Definition iter_wf (it : Tree_Iterator) : Prop :=
  Forall non_null (Node_Stack it) /\
  (current_ it = nullptr -> Node_Stack it = []).

(** ** The memory pool and the pooled allocator *)

(** A slot is an element of one of the [Block] arrays owned by the pool:
    [(b, i)] stands for [&blocks_[b][i]].  A [T*] handed out by the pool is
    the address of a slot, or null. *)
Definition slot : Type := (nat * nat)%type.
Definition ptr : Type := option slot.

(** [struct Block { T data; Block *next; }]: only [next] is ever read, so
    an array of blocks is the list of its [next] fields. *)
Record Memory_Pool : Type := mkPool {
  free_list_ : ptr;
  blocks_ : list (list ptr);
  block_size_ : Z;
  block_count_ : nat
}.

(** [p->next] for a slot address [p]; [None] when [p] is not the address of
    a slot of the pool. *)
Definition next_of (blocks : list (list ptr)) (p : slot) : option ptr :=
  match blocks !! fst p with
  | Some blk => blk !! snd p
  | None => None
  end.

(** [p->next = q] *)
Definition set_next (blocks : list (list ptr)) (p : slot) (q : ptr) : list (list ptr) :=
  alter (fun blk => <[snd p := q]> blk) (fst p) blocks.

(** [Memory_Pool(size_t block_count = 64)]; [sizeof_T] is [sizeof(T)]. *)
Definition Memory_Pool_new (sizeof_T : Z) (block_count : nat) : outcome Memory_Pool :=
  match block_count with
  | O => Throw (invalid_argument zero_block_count)
  | S _ => Ret (mkPool None [] sizeof_T block_count)
  end.

(** The linking done by [Allocate_Block] on the array that becomes block
    number [b]: the loop [new_block[i].next = &new_block[i + 1]] for
    [i = 0 .. last - 1], then [new_block[last].next = free_list_]. *)
Definition link_loop (b m : nat) (new_block : list ptr) : list ptr :=
  fold_left (fun blk i => <[i := Some (b, S i)]> blk) (seq 0 m) new_block.

Definition link_block (b last : nat) (free : ptr) (new_block : list ptr) : list ptr :=
  <[last := free]> (link_loop b last new_block).

(** [void Allocate_Block()]: a value-initialised array of [block_count_]
    blocks, [new_block[i].next = &new_block[i + 1]] for
    [i < block_count_ - 1], the last one linked to the old free list.  With
    [block_count_ == 0] the bound [block_count_ - 1] wraps to [SIZE_MAX] and
    the first store is outside the (empty) array. *)
Definition Allocate_Block (pool : Memory_Pool) : outcome Memory_Pool :=
  match block_count_ pool with
  | O => Undefined
  | S last =>
      let b := length (blocks_ pool) in
      let new_block := replicate (block_count_ pool) (None : ptr) in
      let new_block := link_block b last (free_list_ pool) new_block in
      Ret (mkPool (Some (b, O)) (blocks_ pool ++ [new_block])
                  (block_size_ pool) (block_count_ pool))
  end.

(** [T* Allocate()] of the pool: the head of the free list, after growing
    the pool when the list is empty. *)
Definition Pool_Allocate (pool : Memory_Pool) : outcome (ptr * Memory_Pool) :=
  let* pool1 :=
    match free_list_ pool with
    | None => Allocate_Block pool
    | Some _ => Ret pool
    end in
  match free_list_ pool1 with
  | None => Undefined
  | Some block =>
      match next_of (blocks_ pool1) block with
      | None => Undefined
      | Some nxt =>
          Ret (Some block,
               mkPool nxt (blocks_ pool1) (block_size_ pool1) (block_count_ pool1))
      end
  end.

(** [void Deallocate(T* ptr)] of the pool *)
Definition Pool_Deallocate (pool : Memory_Pool) (p : ptr) : outcome Memory_Pool :=
  match p with
  | None => Throw (invalid_argument null_deallocate)
  | Some block =>
      match next_of (blocks_ pool) block with
      | None => Undefined
      | Some _ =>
          Ret (mkPool (Some block) (set_next (blocks_ pool) block (free_list_ pool))
                      (block_size_ pool) (block_count_ pool))
      end
  end.

(** The pools created by [std::make_shared]; a [std::shared_ptr<Memory_Pool>]
    is the index of its pool. *)
Definition pool_store : Type := list Memory_Pool.

Record BSTree_Allocator : Type := mkAlloc { pool_ : nat }.

(** [BSTree_Allocator() : pool_(std::make_shared<Memory_Pool<T>>())] *)
Definition BSTree_Allocator_new (sizeof_T : Z) (st : pool_store)
  : outcome (BSTree_Allocator * pool_store) :=
  let* pool := Memory_Pool_new sizeof_T 64 in
  Ret (mkAlloc (length st), st ++ [pool]).

(** [BSTree_Allocator(const BSTree_Allocator<U> &other) : pool_(other.pool_)] *)
Definition BSTree_Allocator_copy (other : BSTree_Allocator) : BSTree_Allocator :=
  mkAlloc (pool_ other).

(** [T* Allocate(std::size_t n)] *)
Definition Allocate (a : BSTree_Allocator) (n : Z) (st : pool_store)
  : outcome ptr * pool_store :=
  if negb (n =? 1) then (Throw bad_alloc, st)
  else
    match st !! pool_ a with
    | None => (Undefined, st)
    | Some pool =>
        match Pool_Allocate pool with
        | Ret (p, pool') => (Ret p, <[pool_ a := pool']> st)
        | Throw e => (Throw e, st)
        | Undefined => (Undefined, st)
        | Terminate => (Terminate, st)
        end
    end.

(** [void Deallocate(T* p, std::size_t n) noexcept] *)
Definition Deallocate (a : BSTree_Allocator) (p : ptr) (n : Z) (st : pool_store)
  : outcome unit * pool_store :=
  if n =? 1 then
    match st !! pool_ a with
    | None => (Undefined, st)
    | Some pool =>
        match Pool_Deallocate pool p with
        | Ret pool' => (Ret tt, <[pool_ a := pool']> st)
        | Throw _ => (Terminate, st)
        | Undefined => (Undefined, st)
        | Terminate => (Terminate, st)
        end
    end
  else (Ret tt, st).

(** [p] is the address of a slot of the pool. *)
Definition is_slot (pool : Memory_Pool) (p : slot) : Prop :=
  is_Some (next_of (blocks_ pool) p).

(** A pool as its constructor and member functions leave it: the block
    count is not zero, and the head of the free list and every [next] field
    are null or the address of a slot of the pool. *)
Definition pool_wf (pool : Memory_Pool) : Prop :=
  block_count_ pool <> O /\
  (forall s : slot, free_list_ pool = Some s -> is_slot pool s) /\
  (forall s q : slot, next_of (blocks_ pool) s = Some (Some q) -> is_slot pool q).

(** ** Observers for the further properties (not in the sources) *)

(** Whether the node that [Remove(value)] matches has two children. *)
Fixpoint two_children_match (node : NodePtr) (value : T) : bool :=
  match node with
  | nullptr => false
  | Node d l r _ =>
      if value <? d then two_children_match l value
      else if value >? d then two_children_match r value
      else
        match l, r with
        | Node _ _ _ _, Node _ _ _ _ => true
        | _, _ => false
        end
  end.

(** [k] times [++it], stopping at the first call that does not return. *)
Fixpoint advance (k : nat) (it : Tree_Iterator) : outcome Tree_Iterator :=
  match k with
  | O => Ret it
  | S k' => let* it' := incr it in advance k' it'
  end.

(** ** Assignment, destruction (all versions) *)

(** [void Clear(Node *node)]: the values of the nodes handed to [delete]
    (to [Destroy] and [Deallocate] in the allocator version), in the order
    of the calls: left subtree, right subtree, then the node. *)
Fixpoint Clear (node : NodePtr) : list T :=
  match node with
  | nullptr => []
  | Node d l r _ => Clear l ++ Clear r ++ [d]
  end.

(** [BSTree& operator=(const BSTree &other)].  [other] is [None] when it is
    the object assigned to ([this == &other]).  The result is the object
    after the call and what [Clear] deleted. *)
Definition copy_assign (this : BSTree) (other : option BSTree) : BSTree * list T :=
  match other with
  | None => (this, [])
  | Some o =>
      let deleted := Clear (root_ this) in
      (set_root this (Copy (root_ o)), deleted)
  end.

(** [BSTree& operator=(BSTree &&temp) noexcept].  The result is the object
    after the call, [temp] after the call, and what [Clear] deleted. *)
Definition move_assign (this : BSTree) (temp : option BSTree)
  : BSTree * option BSTree * list T :=
  match temp with
  | None => (this, None, [])
  | Some tmp =>
      let deleted := Clear (root_ this) in
      (set_root this (root_ tmp), Some (set_root tmp nullptr), deleted)
  end.

(** ** The allocator without a pool (version 3, base allocator) *)

Module Base.


(** [T* Allocate(std::size_t n)].  [None] is the null pointer returned for
    [n == 0]; [Some bytes] is the pointer [::operator new(bytes)] returns,
    [bytes] being the [size_t] product [n * sizeof(T)]. *)
Definition Allocate (sizeof_T n : Z) : outcome (option Z) :=
  if n =? 0 then Ret None
  else if n >? size_t_wrap (-1) / sizeof_T then Throw bad_alloc
  else Ret (Some (size_t_wrap (n * sizeof_T))).

End Base.

(** ** The free list as a sequence (observer, not in the sources) *)

(** [chain blocks p l]: following [next] from [p] visits exactly the slots
    of [l], in this order, and then reaches the null pointer. *)
Fixpoint chain (blocks : list (list ptr)) (p : ptr) (l : list slot) : Prop :=
  match l with
  | [] => p = None
  | s :: l' => p = Some s /\ exists q : ptr, next_of blocks s = Some q /\ chain blocks q l'
  end.

(** [k] successive calls of the pool's [Allocate()], stopping at the first
    that does not return: the pointers returned and the pool afterwards. *)
Fixpoint Pool_Allocate_n (k : nat) (pool : Memory_Pool) : outcome (list ptr * Memory_Pool) :=
  match k with
  | O => Ret ([], pool)
  | S k' =>
      let* r := Pool_Allocate pool in
      let* r' := Pool_Allocate_n k' (snd r) in
      Ret (fst r :: fst r', snd r')
  end.

(** The slots [i, i+1, ..., i+n-1] of block [b]. *)
Definition block_slots (b i n : nat) : list slot := map (pair b) (seq i n).

(** ** Version 3: the tree over the pooled allocator *)

Module V3.

(** A [Node*] of the allocator version: the node lives in the slot [addr_]
    that [alloc_.Allocate(1)] returned for it. *)
Inductive PNodePtr : Type :=
| pnull
| PNode (addr_ : slot) (data_ : T) (left_ right_ : PNodePtr) (count_ : Z).

(** The tree without the addresses. *)
Fixpoint erase (node : PNodePtr) : NodePtr :=
  match node with
  | pnull => nullptr
  | PNode _ d l r c => Node d (erase l) (erase r) c
  end.

(** The slots the nodes of a tree live in, in the order in which [Clear]
    gives them back (left subtree, right subtree, node). *)
Fixpoint addrs (node : PNodePtr) : list slot :=
  match node with
  | pnull => []
  | PNode s _ l r _ => addrs l ++ addrs r ++ [s]
  end.

(** [Node* Insert(Node *node, const T &value)]: at a null position
    [new_node = alloc_.Allocate(1); alloc_.Construct(new_node, Node(value));]
    ([Construct] through a null pointer is undefined); the handlers only
    print and rethrow, as no constructor of [Node] throws. *)
Fixpoint Insert_node (alloc_ : BSTree_Allocator) (node : PNodePtr) (value : T)
    (st : pool_store) : outcome PNodePtr * pool_store :=
  match node with
  | pnull =>
      match Allocate alloc_ 1 st with
      | (Ret (Some new_node), st') => (Ret (PNode new_node value pnull pnull 0), st')
      | (Ret None, st') => (Undefined, st')
      | (Throw e, st') => (Throw e, st')
      | (Undefined, st') => (Undefined, st')
      | (Terminate, st') => (Terminate, st')
      end
  | PNode s d l r c =>
      if value <? d then
        match Insert_node alloc_ l value st with
        | (Ret l', st') => (Ret (PNode s d l' r c), st')
        | (Throw e, st') => (Throw e, st')
        | (Undefined, st') => (Undefined, st')
        | (Terminate, st') => (Terminate, st')
        end
      else if value >? d then
        match Insert_node alloc_ r value st with
        | (Ret r', st') => (Ret (PNode s d l r' c), st')
        | (Throw e, st') => (Throw e, st')
        | (Undefined, st') => (Undefined, st')
        | (Terminate, st') => (Terminate, st')
        end
      else (Ret (PNode s d l r (size_t_wrap (c + 1))), st)
  end.

(** [void Clear(Node *node)]: both subtrees, then
    [alloc_.Destroy(node); alloc_.Deallocate(node, 1);]. *)
Fixpoint Clear (alloc_ : BSTree_Allocator) (node : PNodePtr) (st : pool_store)
  : outcome unit * pool_store :=
  match node with
  | pnull => (Ret tt, st)
  | PNode s _ l r _ =>
      match Clear alloc_ l st with
      | (Ret _, st1) =>
          match Clear alloc_ r st1 with
          | (Ret _, st2) => Deallocate alloc_ (Some s) 1 st2
          | (o, st2) => (o, st2)
          end
      | (o, st1) => (o, st1)
      end
  end.

(** The tree [Insert] returns once the slot for a new node is known. *)
Fixpoint insert_at (new_node : slot) (node : PNodePtr) (value : T) : PNodePtr :=
  match node with
  | pnull => PNode new_node value pnull pnull 0
  | PNode s d l r c =>
      if value <? d then PNode s d (insert_at new_node l value) r c
      else if value >? d then PNode s d l (insert_at new_node r value) c
      else PNode s d l r (size_t_wrap (c + 1))
  end.

(** The nodes of [node] live in pairwise distinct slots of [pool], none of
    which is on the free list [free] of the pool. *)
Definition tree_in_pool (pool : Memory_Pool) (node : PNodePtr) (free : list slot) : Prop :=
  block_count_ pool <> O /\
  chain (blocks_ pool) (free_list_ pool) free /\
  NoDup (addrs node ++ free) /\
  Forall (is_slot pool) (addrs node ++ free).

End V3.

(** Successive [root_ = Insert(root_, value)] of the allocator version,
    stopping at the first call that does not return. *)
Fixpoint V3_Insert_all (alloc_ : BSTree_Allocator) (values : list T)
    (node : V3.PNodePtr) (st : pool_store) : outcome V3.PNodePtr * pool_store :=
  match values with
  | [] => (Ret node, st)
  | v :: rest =>
      match V3.Insert_node alloc_ node v st with
      | (Ret node', st') => V3_Insert_all alloc_ rest node' st'
      | (o, st') => (o, st')
      end
  end.

(** The tree and the pool that inserting 5, 3, 8 into an empty tree over a
    new pool of block count 4 produces (used as a concrete instance). *)
Definition sample_pool : Memory_Pool :=
  mkPool (Some (0, 3)%nat)
         [[Some (0, 1)%nat; Some (0, 2)%nat; Some (0, 3)%nat; None]] 8 4.

Definition sample_tree : V3.PNodePtr :=
  V3.PNode (0, 0)%nat 5
    (V3.PNode (0, 1)%nat 3 V3.pnull V3.pnull 0)
    (V3.PNode (0, 2)%nat 8 V3.pnull V3.pnull 0) 0.

(** The values a sequence of calls inserts. *)
Fixpoint inserted_values (ops : list V1.op) : list T :=
  match ops with
  | [] => []
  | V1.OpInsert v :: rest => v :: inserted_values rest
  | _ :: rest => inserted_values rest
  end.

(** ** Sequences of calls on a pool *)

(** [PDeallocate i] gives back the pointer that allocation number [i] of the
    run returned (counting from 0); when the run has made no such allocation
    yet, the caller has no pointer to pass and passes the null pointer. *)
Inductive pool_op : Type :=
| PAllocate
| PDeallocate (i : nat).

(** The calls of [ops] in order, stopping at the first that does not
    return; [handed] collects the pointers returned so far. *)
Fixpoint pool_run (ops : list pool_op) (handed : list ptr) (pool : Memory_Pool)
  : outcome (list ptr * Memory_Pool) :=
  match ops with
  | [] => Ret (handed, pool)
  | PAllocate :: rest =>
      let* r := Pool_Allocate pool in
      pool_run rest (handed ++ [fst r]) (snd r)
  | PDeallocate i :: rest =>
      let p := match handed !! i with Some p => p | None => None end in
      let* pool' := Pool_Deallocate pool p in
      pool_run rest handed pool'
  end.

(** Every [PDeallocate] of the sequence names an allocation made before it. *)
Fixpoint frees_allocated (ops : list pool_op) (allocated : nat) : bool :=
  match ops with
  | [] => true
  | PAllocate :: rest => frees_allocated rest (S allocated)
  | PDeallocate i :: rest => (i <? allocated)%nat && frees_allocated rest allocated
  end.

(** * Properties *)

(** ** Comparisons *)

Ltac cmp_cases :=
  repeat match goal with
  | |- context [?a >? ?b] => rewrite (Z.gtb_ltb a b)
  | H : context [?a >? ?b] |- _ => rewrite (Z.gtb_ltb a b) in H
  | |- context [?a <? ?b] => destruct (Z.ltb_spec a b)
  | |- context [?a =? ?b] => destruct (Z.eqb_spec a b)
  end.

Lemma size_t_wrap_small (z : Z) : 0 <= z <= SIZE_MAX -> size_t_wrap z = z.
Proof.
  unfold size_t_wrap, SIZE_MAX. intros H. apply Z.mod_small. lia.
Qed.

Lemma size_t_wrap_range (z : Z) : 0 <= size_t_wrap z <= SIZE_MAX.
Proof.
  unfold size_t_wrap, SIZE_MAX.
  pose proof (Z.mod_pos_bound z (2 ^ 64) ltac:(lia)). lia.
Qed.

(** ** Insertion keeps the search-tree ordering *)

Section InsertFacts.

Variable value : T.

Lemma Insert_node_In (node : NodePtr) (x : T) :
  In x (Inorder (V1.Insert_node node value)) <-> x = value \/ In x (Inorder node).
Proof.
  induction node as [|d l IHl r IHr c]; simpl.
  - intuition congruence.
  - cmp_cases; simpl; rewrite ?in_app_iff; simpl; rewrite ?in_app_iff;
      try rewrite IHl; try rewrite IHr; try tauto.
    assert (value = d) by lia. subst. intuition congruence.
Qed.

Lemma Insert_node_bst (node : NodePtr) :
  bst node -> bst (V1.Insert_node node value).
Proof.
  induction node as [|d l IHl r IHr c]; simpl.
  - intros _. repeat split; constructor.
  - intros (Hl & Hr & Bl & Br).
    cmp_cases; simpl; repeat split; auto.
    + apply List.Forall_forall. intros x Hx. apply Insert_node_In in Hx.
      destruct Hx as [->|Hx]; [assumption|].
      rewrite List.Forall_forall in Hl. now apply Hl.
    + apply List.Forall_forall. intros x Hx. apply Insert_node_In in Hx.
      destruct Hx as [->|Hx]; [assumption|].
      rewrite List.Forall_forall in Hr. now apply Hr.
Qed.

End InsertFacts.

Lemma Insert_all_root_In (values : list T) (t : BSTree) (x : T) :
  In x (Inorder (root_ (V1.Insert_all values t))) <->
  In x values \/ In x (Inorder (root_ t)).
Proof.
  revert t. induction values as [|v vs IH]; intros t; simpl.
  - tauto.
  - unfold V1.Insert_all in IH. rewrite IH. simpl.
    rewrite Insert_node_In. intuition auto.
Qed.

Lemma Insert_all_bst (values : list T) (t : BSTree) :
  bst (root_ t) -> bst (root_ (V1.Insert_all values t)).
Proof.
  revert t. induction values as [|v vs IH]; intros t Hb; simpl.
  - assumption.
  - apply IH. simpl. now apply Insert_node_bst.
Qed.

Lemma sorted_app_cons (l1 l2 : list Z) (d : Z) :
  StronglySorted Z.lt l1 -> StronglySorted Z.lt l2 ->
  Forall (fun x => x < d) l1 -> Forall (fun x => d < x) l2 ->
  StronglySorted Z.lt (l1 ++ d :: l2).
Proof.
  intros S1 S2 F1 F2.
  induction S1 as [|a l1 S1 IH Ha]; simpl.
  - now constructor.
  - inversion F1 as [|? ? Had F1']; subst.
    constructor; [now apply IH|].
    apply Forall_app. split; [assumption|].
    constructor; [assumption|].
    eapply List.Forall_impl; [|exact F2]. simpl. intros; lia.
Qed.

Lemma bst_Inorder_sorted (node : NodePtr) :
  bst node -> StronglySorted Z.lt (Inorder node).
Proof.
  induction node as [|d l IHl r IHr c]; simpl.
  - constructor.
  - intros (Hl & Hr & Bl & Br). apply sorted_app_cons; auto.
Qed.

Lemma Inorder_length (node : NodePtr) :
  length (Inorder node) = node_count node.
Proof.
  induction node as [|d l IHl r IHr c]; simpl; [reflexivity|].
  rewrite length_app. simpl. lia.
Qed.

(** ** The iterator yields the in-order sequence *)

Lemma Push_left_values (node : NodePtr) (stack : list NodePtr) :
  stack_values (Push_left node stack) = Inorder node ++ stack_values stack.
Proof.
  revert stack. induction node as [|d l IHl r IHr c]; intros stack; simpl.
  - reflexivity.
  - rewrite IHl. simpl. now rewrite <- app_assoc.
Qed.

Lemma Push_left_non_null (node : NodePtr) (stack : list NodePtr) :
  Forall non_null stack -> Forall non_null (Push_left node stack).
Proof.
  revert stack. induction node as [|d l IHl r IHr c]; intros stack H; simpl.
  - assumption.
  - apply IHl. constructor; [discriminate|assumption].
Qed.

Lemma Tree_Iterator_from_wf (node : NodePtr) : iter_wf (Tree_Iterator_from node).
Proof.
  unfold Tree_Iterator_from. simpl.
  pose proof (Push_left_non_null node [] (List.Forall_nil _)) as H.
  destruct (Push_left node []) as [|top rest]; split; simpl; auto.
  - now inversion H.
  - intros ->. inversion H; subst. now exfalso.
Qed.

Lemma Tree_Iterator_from_values (node : NodePtr) :
  iter_values (Tree_Iterator_from node) = Inorder node.
Proof.
  unfold Tree_Iterator_from, iter_values. simpl.
  pose proof (Push_left_values node []) as H. simpl in H.
  rewrite app_nil_r in H. rewrite <- H.
  destruct (Push_left node []) as [|top rest]; reflexivity.
Qed.

(** One [++] on a positioned iterator: it returns, stays well formed, and
    drops exactly the value that [*] had shown. *)
Lemma incr_positioned (it : Tree_Iterator) :
  iter_wf it -> is_end it = false ->
  exists d it',
    deref it = Ret d /\ incr it = Ret it' /\ iter_wf it' /\
    iter_values it = d :: iter_values it'.
Proof.
  destruct it as [stack cur]. unfold iter_wf, is_end, deref, incr, iter_values. simpl.
  intros [Hs _] Hend. destruct cur as [|d l r c]; [discriminate|].
  exists d.
  assert (Hpush : (match r with
                   | nullptr => stack
                   | Node _ _ _ _ => Push_left r stack
                   end) = Push_left r stack) by now destruct r.
  rewrite Hpush.
  pose proof (Push_left_values r stack) as Hv.
  pose proof (Push_left_non_null r stack Hs) as Hn.
  destruct (Push_left r stack) as [|top rest].
  - eexists. repeat split; simpl; auto.
    simpl in Hv. rewrite <- Hv. reflexivity.
  - eexists. repeat split; simpl.
    + now inversion Hn.
    + intros ->. inversion Hn; subst. now exfalso.
    + simpl in Hv. rewrite <- Hv. reflexivity.
Qed.

Lemma traverse_values (fuel : nat) (it : Tree_Iterator) :
  iter_wf it -> (length (iter_values it) <= fuel)%nat ->
  traverse fuel it = Some (iter_values it).
Proof.
  revert it. induction fuel as [|fuel IH]; intros it Hwf Hlen.
  - destruct it as [stack cur]. destruct cur as [|d l r c].
    + destruct Hwf as [_ Hnil]. simpl in Hnil. rewrite (Hnil eq_refl). reflexivity.
    + unfold iter_values in Hlen. simpl in Hlen. lia.
  - simpl. destruct (is_end it) eqn:Hend.
    + destruct it as [stack cur]. unfold is_end in Hend. simpl in Hend.
      destruct cur; [|discriminate].
      destruct Hwf as [_ Hnil]. simpl in Hnil. rewrite (Hnil eq_refl). reflexivity.
    + destruct (incr_positioned it Hwf Hend) as (d & it' & Hd & Hi & Hwf' & Hv).
      rewrite Hd, Hi. rewrite Hv in Hlen. simpl in Hlen.
      rewrite (IH it' Hwf') by lia. now rewrite Hv.
Qed.

(** C8.  For every sequence of values inserted into an empty tree, the loop
    from [begin()] to [end()] returns within as many rounds as the tree has
    nodes; what it yields is the in-order sequence of the tree, one entry per
    node (a node holding duplicates appears once), strictly ascending, and
    its entries are exactly the inserted values, whatever their order was. *)
Theorem iterator_yields_ascending_distinct (values : list T) :
  let t := V1.Insert_all values BSTree_new in
  exists out : list T,
    traverse (node_count (root_ t)) (begin_ t) = Some out /\
    out = Inorder (root_ t) /\
    length out = node_count (root_ t) /\
    StronglySorted Z.lt out /\
    List.NoDup out /\
    (forall x : T, In x out <-> In x values).
Proof.
  intros t. exists (Inorder (root_ t)).
  assert (Hb : bst (root_ t)) by (apply Insert_all_bst; exact I).
  pose proof (bst_Inorder_sorted _ Hb) as Hs.
  repeat split.
  - unfold begin_. rewrite <- (Tree_Iterator_from_values (root_ t)).
    apply traverse_values; [apply Tree_Iterator_from_wf|].
    rewrite Tree_Iterator_from_values, Inorder_length. lia.
  - apply Inorder_length.
  - exact Hs.
  - clear -Hs. induction Hs as [|a l Hs IH Ha]; constructor; auto.
    intros Hin. rewrite List.Forall_forall in Ha. specialize (Ha a Hin). lia.
  - intros Hx. apply Insert_all_root_In in Hx. simpl in Hx. tauto.
  - intros Hx. apply Insert_all_root_In. now left.
Qed.

(** ** Duplicates: what [Remove] does with the counter *)

Lemma Insert_times_S (k : nat) (value : T) (t : BSTree) :
  V1.Insert_times (S k) value t = V1.Insert (V1.Insert_times k value t) value.
Proof. reflexivity. Qed.

Lemma Remove_times_S (k : nat) (value : T) (t : BSTree) :
  V1.Remove_times (S k) value t = V1.Remove (V1.Remove_times k value t) value.
Proof. reflexivity. Qed.

Lemma Insert_root (t : BSTree) (value : T) :
  root_ (V1.Insert t value) = V1.Insert_node (root_ t) value.
Proof. reflexivity. Qed.

Lemma Remove_root (t : BSTree) (value : T) :
  root_ (V1.Remove t value) =
  fst (Remove_node (root_ t) value (total_elements_count_ t)).
Proof.
  unfold V1.Remove. now destruct (Remove_node (root_ t) value (total_elements_count_ t)).
Qed.

Lemma Insert_times_root (k : nat) (value : T) :
  (1 <= k)%nat -> Z.of_nat k <= 2 ^ 64 ->
  root_ (V1.Insert_times k value BSTree_new) =
  Node value nullptr nullptr (Z.of_nat k - 1).
Proof.
  induction k as [|k IH]; intros Hk Hmax; [lia|].
  destruct k as [|k].
  - reflexivity.
  - rewrite Insert_times_S, Insert_root, IH by lia.
    simpl. rewrite Z.ltb_irrefl, Z.gtb_ltb, Z.ltb_irrefl.
    f_equal. rewrite size_t_wrap_small; unfold SIZE_MAX; lia.
Qed.

Lemma Remove_times_keeps_node (j : nat) (value : T) (c dup total : Z) :
  Z.of_nat j < c <= SIZE_MAX ->
  root_ (V1.Remove_times j value (mkBSTree (Node value nullptr nullptr c) dup total)) =
  Node value nullptr nullptr (c - Z.of_nat j).
Proof.
  induction j as [|j IH]; intros Hc.
  - simpl. f_equal. lia.
  - rewrite Remove_times_S, Remove_root, IH by lia.
    simpl. rewrite Z.ltb_irrefl, Z.gtb_ltb, Z.ltb_irrefl.
    destruct (Z.gtb_spec (c - Z.of_nat j) 1) as [_|Hle]; [|lia].
    simpl. f_equal. rewrite size_t_wrap_small; unfold SIZE_MAX in *; lia.
Qed.

(** After [k >= 2] insertions of one value into an empty tree, the node is
    already gone after [k - 1] removals. *)
Lemma Remove_times_early (k : nat) (value : T) :
  (2 <= k)%nat -> Z.of_nat k <= 2 ^ 64 ->
  V1.Search
    (V1.Remove_times (k - 1) value (V1.Insert_times k value BSTree_new)) value = false.
Proof.
  intros Hk Hmax.
  pose proof (Insert_times_root k value ltac:(lia) Hmax) as Hroot.
  destruct (V1.Insert_times k value BSTree_new) as [rt dp tot].
  simpl in Hroot. subst rt.
  replace (k - 1)%nat with (S (k - 2)) by lia.
  unfold V1.Search.
  rewrite Remove_times_S, Remove_root, Remove_times_keeps_node
    by (unfold SIZE_MAX; lia).
  simpl. rewrite Z.ltb_irrefl, Z.gtb_ltb, Z.ltb_irrefl.
  replace (Z.of_nat k - 1 - Z.of_nat (k - 2)) with 1 by lia.
  reflexivity.
Qed.

(** C1 (the code departs from the claim).  A value inserted [k >= 2] times
    into an empty tree sits in a node whose duplicate counter is [k - 1];
    [Remove] keeps the node only while the counter is greater than 1, so the
    node is deleted by removal number [k - 1], not [k], and [Search] is
    already false after [k - 1] removals.  In particular a value inserted
    twice is gone after one removal: on the scenario 5, 3, 8, 3, 1 one
    [Remove(3)] changes the traversal from 1 3 5 8 to 1 5 8, and a second
    [Remove(3)] of the error-handling version throws not-found. *)
Theorem Remove_deletes_node_holding_one_duplicate :
  (forall (k : nat) (v : T),
     (2 <= k)%nat -> Z.of_nat k <= 2 ^ 64 ->
     V1.Search
       (V1.Remove_times (k - 1) v (V1.Insert_times k v BSTree_new)) v = false) /\
  (forall v : T,
     let t := V1.Insert (V1.Insert BSTree_new v) v in
     count_of (root_ t) v = Some 1 /\
     V1.Search t v = true /\
     V1.Search (V1.Remove t v) v = false) /\
  (let t := V1.Insert_all [5; 3; 8; 3; 1] BSTree_new in
   V1.Print_in_order t = [1; 3; 5; 8] /\
   count_of (root_ t) 3 = Some 1 /\
   V1.Print_in_order (V1.Remove t 3) = [1; 5; 8] /\
   V1.Search (V1.Remove t 3) 3 = false /\
   snd (V2.Remove t 3) = V1.Remove t 3 /\
   fst (V2.Remove (V1.Remove t 3) 3) = Throw (runtime_error element_not_found)).
Proof.
  split; [exact Remove_times_early|].
  split.
  - intros v t. subst t. unfold V1.Insert, V1.Remove, V1.Search. simpl.
    rewrite !Z.ltb_irrefl, !Z.gtb_ltb, !Z.ltb_irrefl. simpl.
    rewrite !Z.eqb_refl, !Z.ltb_irrefl, !Z.gtb_ltb, !Z.ltb_irrefl.
    repeat split.
  - vm_compute. repeat split.
Qed.

Lemma Remove_deletes_node_holding_one_duplicate_witness :
  (2 <= 3)%nat /\ Z.of_nat 3 <= 2 ^ 64 /\
  V1.Search (V1.Remove_times (3 - 1) 7 (V1.Insert_times 3 7 BSTree_new)) 7 = false.
Proof.
  assert (H2 : (2 <= 3)%nat) by lia.
  assert (H64 : Z.of_nat 3 <= 2 ^ 64) by (vm_compute; discriminate).
  split; [exact H2|]. split; [exact H64|].
  exact (proj1 Remove_deletes_node_holding_one_duplicate 3%nat 7 H2 H64).
Defined.

(** ** Removal of a node with two children *)

(** C2 (the code departs from the claim).  When the matched node has two
    children and its counter is not greater than 1, [Remove] returns
    [nullptr] for it: the node and both subtrees leave the tree, and the
    successor, although [Find_min] would find it, is never looked up.  After
    inserting 5, 2, 8, 6, 9 and removing 5 the tree is empty. *)
Theorem Remove_two_children_returns_null :
  (forall (d dl dr : T) (ll lr rl rr : NodePtr) (c cl cr total : Z),
     c <= 1 ->
     Remove_node (Node d (Node dl ll lr cl) (Node dr rl rr cr) c) d total =
     (nullptr, size_t_wrap (total - 1))) /\
  (let t := V1.Insert_all [5; 2; 8; 6; 9] BSTree_new in
   root_ t = Node 5 (Node 2 nullptr nullptr 0)
                    (Node 8 (Node 6 nullptr nullptr 0) (Node 9 nullptr nullptr 0) 0) 0 /\
   V1.Print_in_order t = [2; 5; 6; 8; 9] /\
   Find_min (Node 8 (Node 6 nullptr nullptr 0) (Node 9 nullptr nullptr 0) 0) =
     Ret (Node 6 nullptr nullptr 0) /\
   root_ (V1.Remove t 5) = nullptr /\
   V1.Print_in_order (V1.Remove t 5) = [] /\
   V1.Search (V1.Remove t 5) 6 = false /\
   snd (V2.Remove t 5) = V1.Remove t 5).
Proof.
  split.
  - intros d dl dr ll lr rl rr c cl cr total Hc. simpl.
    rewrite Z.ltb_irrefl, Z.gtb_ltb, Z.ltb_irrefl.
    destruct (Z.gtb_spec c 1) as [Hgt|_]; [lia|reflexivity].
  - vm_compute. repeat split.
Qed.

Lemma Remove_two_children_returns_null_witness :
  0 <= 1 /\
  Remove_node (Node 5 (Node 2 nullptr nullptr 0)
                      (Node 8 (Node 6 nullptr nullptr 0) (Node 9 nullptr nullptr 0) 0) 0)
              5 0 = (nullptr, size_t_wrap (0 - 1)).
Proof.
  assert (H : 0 <= 1) by lia.
  split; [exact H|].
  exact (proj1 Remove_two_children_returns_null
           5 2 8 nullptr nullptr (Node 6 nullptr nullptr 0) (Node 9 nullptr nullptr 0)
           0 0 0 0 H).
Defined.

(** ** The element counter *)

Lemma Remove_node_total_found (node : NodePtr) (value : T) (total : Z) :
  snd (Remove_node node value total) =
  if Search_node node value then size_t_wrap (total - 1) else total.
Proof.
  induction node as [|d l IHl r IHr c]; simpl; [reflexivity|].
  destruct (Z.eqb_spec d value) as [->|Hne].
  - rewrite Z.ltb_irrefl, Z.gtb_ltb, Z.ltb_irrefl.
    destruct (c >? 1); reflexivity.
  - rewrite Z.gtb_ltb.
    destruct (Z.ltb_spec value d).
    + destruct (Remove_node l value total). simpl in *. exact IHl.
    + destruct (Z.ltb_spec d value); [|lia].
      destruct (Remove_node r value total). simpl in *. exact IHr.
Qed.

Lemma Remove_total (t : BSTree) (v : T) :
  total_elements_count_ (V1.Remove t v) =
  if V1.Search t v then size_t_wrap (total_elements_count_ t - 1)
  else total_elements_count_ t.
Proof.
  unfold V1.Remove, V1.Search.
  pose proof (Remove_node_total_found (root_ t) v (total_elements_count_ t)) as H.
  destruct (Remove_node (root_ t) v (total_elements_count_ t)). exact H.
Qed.

Lemma run_total (ops : list V1.op) (t : BSTree) :
  0 <= total_elements_count_ t <= SIZE_MAX ->
  total_elements_count_ (V1.run ops t) =
  size_t_wrap (total_elements_count_ t - V1.removes_found ops t).
Proof.
  revert t. induction ops as [|o ops IH]; intros t Hrange.
  - simpl. rewrite Z.sub_0_r. symmetry. now apply size_t_wrap_small.
  - change (V1.run (o :: ops) t) with (V1.run ops (V1.step t o)).
    cbn [V1.removes_found].
    destruct o as [v|v|v]; cbn [V1.step].
    + rewrite IH by exact Hrange. reflexivity.
    + rewrite IH by exact Hrange. reflexivity.
    + pose proof (Remove_total t v) as Ht.
      destruct (V1.Search t v).
      * rewrite IH by (rewrite Ht; apply size_t_wrap_range).
        rewrite Ht. unfold size_t_wrap.
        rewrite Zminus_mod_idemp_l. f_equal. lia.
      * rewrite IH by (rewrite Ht; exact Hrange).
        rewrite Ht. reflexivity.
Qed.

(** C3 (the code departs from the claim).  No [Insert] writes
    [total_elements_count_]; a [Remove] that finds its value decrements it
    modulo [2^64].  So after any sequence of calls on an empty tree the
    counter is minus the number of successful removals modulo [2^64],
    whatever the number of insertions: after one insertion it is 0, not 1,
    and after removing that value again it is [SIZE_MAX], not 0. *)
Theorem total_elements_count_not_incremented :
  (forall (t : BSTree) (v : T),
     total_elements_count_ (V1.Insert t v) = total_elements_count_ t /\
     total_elements_count_ (snd (V2.Insert t v)) = total_elements_count_ t) /\
  (forall (t : BSTree) (v : T),
     total_elements_count_ (V1.Remove t v) =
     if V1.Search t v then size_t_wrap (total_elements_count_ t - 1)
     else total_elements_count_ t) /\
  (forall ops : list V1.op,
     total_elements_count_ (V1.run ops BSTree_new) =
     size_t_wrap (- V1.removes_found ops BSTree_new)) /\
  (let ops := [V1.OpInsert 5] in
   V1.inserts ops - V1.removes_found ops BSTree_new = 1 /\
   total_elements_count_ (V1.run ops BSTree_new) = 0) /\
  (let ops := [V1.OpInsert 5; V1.OpRemove 5] in
   V1.inserts ops - V1.removes_found ops BSTree_new = 0 /\
   total_elements_count_ (V1.run ops BSTree_new) = SIZE_MAX).
Proof.
  split.
  - intros t v. split; [reflexivity|].
    unfold V2.Insert. destruct (v =? T_default); [reflexivity|].
    destruct (V2.Insert_node (root_ t) v 0); reflexivity.
  - split; [exact Remove_total|].
    split.
    + intros ops. rewrite run_total by (unfold SIZE_MAX; simpl; lia).
      reflexivity.
    + split; vm_compute; split; reflexivity.
Qed.

(** ** The depth guard of version 2 *)

Lemma Insert_node_depth_zero (node : NodePtr) (value : T) :
  V2.Insert_node node value 0 = Ret (V1.Insert_node node value).
Proof.
  induction node as [|d l IHl r IHr c]; simpl.
  - reflexivity.
  - destruct (value <? d); [now rewrite IHl|].
    destruct (value >? d); [now rewrite IHr|reflexivity].
Qed.

Lemma Insert_all_ascending_chain :
  exists t : BSTree,
    V2.Insert_all (V2.ascending 1002) BSTree_new = (Ret tt, t) /\
    V2.descent_depth (root_ t) 1003 = 1002 /\
    fst (V2.Insert t 1003) = Ret tt /\
    node_count (root_ (snd (V2.Insert t 1003))) = 1003%nat.
Proof.
  eexists. split; [vm_compute; reflexivity|]. vm_compute. repeat split.
Qed.

(** C4 (the code departs from the claim).  The private [Insert] tests
    [depth > MAX_DEPTH], but every call reaches it with [depth = 0]: the
    public [Insert] and both recursive calls leave the argument out.  So the
    call returns normally however deep the descent is; the values
    1, 2, ..., 1002 inserted in this order build a chain on which the next
    insertion descends 1002 levels without any error.  Only a call that is
    handed a depth above 1000 to begin with would throw. *)
Theorem depth_guard_never_fires :
  (forall (node : NodePtr) (value : T),
     V2.Insert_node node value 0 = Ret (V1.Insert_node node value)) /\
  (forall (t : BSTree) (value : T) (e : exn),
     fst (V2.Insert t value) = Throw e -> e = invalid_argument empty_value) /\
  (exists t : BSTree,
     V2.Insert_all (V2.ascending 1002) BSTree_new = (Ret tt, t) /\
     V2.descent_depth (root_ t) 1003 = 1002 /\
     fst (V2.Insert t 1003) = Ret tt /\
     node_count (root_ (snd (V2.Insert t 1003))) = 1003%nat) /\
  (forall (node : NodePtr) (value : T),
     V2.Insert_node node value 1001 = Throw (runtime_error recursion_too_deep)).
Proof.
  split; [exact Insert_node_depth_zero|].
  split.
  - intros t value e. unfold V2.Insert.
    destruct (value =? T_default); simpl.
    + congruence.
    + rewrite Insert_node_depth_zero. simpl. discriminate.
  - split; [exact Insert_all_ascending_chain|].
    intros node value. destruct node; reflexivity.
Qed.

Lemma depth_guard_never_fires_witness :
  fst (V2.Insert BSTree_new T_default) = Throw (invalid_argument empty_value) /\
  invalid_argument empty_value = invalid_argument empty_value.
Proof.
  assert (H : fst (V2.Insert BSTree_new T_default) =
              Throw (invalid_argument empty_value)) by reflexivity.
  split; [exact H|].
  exact (proj1 (proj2 depth_guard_never_fires) BSTree_new T_default
               (invalid_argument empty_value) H).
Defined.

(** ** The exhausted iterator *)

(** C5 (the code departs from the claim).  On an iterator whose [current_]
    is null, [operator++] throws [out_of_range], but [operator*] has no such
    test: it reads [current_->data_] through the null pointer.  This is the
    state of [end()] and of [begin()] on an empty tree. *)
Theorem exhausted_deref_is_unchecked :
  (forall stack : list NodePtr,
     incr (mkIter stack nullptr) = Throw (out_of_range iteration_beyond_tree) /\
     deref (mkIter stack nullptr) = Undefined) /\
  (forall t : BSTree,
     current_ (end_ t) = nullptr /\
     incr (end_ t) = Throw (out_of_range iteration_beyond_tree) /\
     deref (end_ t) = Undefined) /\
  deref (begin_ BSTree_new) = Undefined.
Proof.
  repeat split.
Qed.

(** ** [Remove] on an absent value *)

(** C6.  In the error-handling version, when [Search(value)] is false,
    [Remove(value)] throws the not-found [runtime_error] and the tree object
    (root, both counters) is exactly what it was before the call. *)
Theorem Remove_absent_throws_unchanged (t : BSTree) (value : T) :
  V2.Search t value = false ->
  V2.Remove t value = (Throw (runtime_error element_not_found), t).
Proof.
  intros H. unfold V2.Remove. rewrite H. reflexivity.
Qed.

Lemma Remove_absent_throws_unchanged_witness :
  let t := V1.Insert_all [5; 3; 8] BSTree_new in
  V2.Search t 4 = false /\
  V2.Remove t 4 = (Throw (runtime_error element_not_found), t).
Proof.
  split; [reflexivity|].
  apply (Remove_absent_throws_unchanged (V1.Insert_all [5; 3; 8] BSTree_new) 4).
  reflexivity.
Defined.

(** ** [Insert] and the sentinel *)

(** C7.  In the error-handling version, [Insert(T())] throws
    [invalid_argument] and leaves the tree object as it was, whatever the
    tree; [Insert] of any other value never throws [invalid_argument]. *)
Theorem Insert_rejects_sentinel_only (t : BSTree) (value : T) :
  V2.Insert t T_default = (Throw (invalid_argument empty_value), t) /\
  (value <> T_default ->
   forall w : what, fst (V2.Insert t value) <> Throw (invalid_argument w)).
Proof.
  split; [reflexivity|].
  intros Hne w. unfold V2.Insert.
  destruct (Z.eqb_spec value T_default) as [Heq|_]; [contradiction|].
  rewrite Insert_node_depth_zero. simpl. discriminate.
Qed.

Lemma Insert_rejects_sentinel_only_witness :
  let t := V1.Insert_all [5; 3; 8] BSTree_new in
  V2.Insert t T_default = (Throw (invalid_argument empty_value), t) /\
  fst (V2.Insert t 7) <> Throw (invalid_argument empty_value).
Proof.
  pose proof (Insert_rejects_sentinel_only (V1.Insert_all [5; 3; 8] BSTree_new) 7)
    as [H0 H1].
  split; [exact H0|].
  apply H1. unfold T_default. lia.
Defined.

(** ** The auxiliary duplicate counter *)

Lemma Insert_dup (t : BSTree) (v : T) :
  duplicate_elements_count_ (V1.Insert t v) = duplicate_elements_count_ t /\
  duplicate_elements_count_ (snd (V2.Insert t v)) = duplicate_elements_count_ t.
Proof.
  split; [reflexivity|].
  unfold V2.Insert. destruct (v =? T_default); [reflexivity|].
  destruct (V2.Insert_node (root_ t) v 0); reflexivity.
Qed.

Lemma Remove_dup (t : BSTree) (v : T) :
  duplicate_elements_count_ (V1.Remove t v) = duplicate_elements_count_ t /\
  duplicate_elements_count_ (snd (V2.Remove t v)) = duplicate_elements_count_ t.
Proof.
  unfold V2.Remove, V1.Remove.
  destruct (negb (V2.Search t v));
    destruct (Remove_node (root_ t) v (total_elements_count_ t)); split; reflexivity.
Qed.

Lemma run_dup_V1 (ops : list V1.op) (t : BSTree) :
  duplicate_elements_count_ (V1.run ops t) = duplicate_elements_count_ t.
Proof.
  revert t. induction ops as [|o ops IH]; intros t; [reflexivity|].
  unfold V1.run in *. simpl. rewrite IH.
  destruct o; simpl; first [reflexivity | apply Insert_dup | apply Remove_dup].
Qed.

Lemma run_dup_V2 (ops : list V2.op) (t : BSTree) :
  duplicate_elements_count_ (V2.run ops t) = duplicate_elements_count_ t.
Proof.
  revert t. induction ops as [|o ops IH]; intros t; [reflexivity|].
  unfold V2.run in *. simpl. rewrite IH.
  destruct o; simpl; first [reflexivity | apply Insert_dup | apply Remove_dup].
Qed.

(** C10.  [duplicate_elements_count_] is 0 in a default-constructed tree,
    is taken over unchanged by the copy and the move constructor, and no
    [Insert], [Search] or [Remove] of either version changes it, also when
    the call adds or removes a duplicate or throws; hence it is 0 after any
    sequence of calls on a default-constructed tree. *)
Theorem duplicate_elements_count_never_updated :
  duplicate_elements_count_ BSTree_new = 0 /\
  (forall other : BSTree,
     duplicate_elements_count_ (V2.BSTree_copy other) = duplicate_elements_count_ other /\
     duplicate_elements_count_ (fst (V2.BSTree_move other)) = duplicate_elements_count_ other) /\
  (forall (t : BSTree) (v : T),
     duplicate_elements_count_ (V1.Insert t v) = duplicate_elements_count_ t /\
     duplicate_elements_count_ (snd (V2.Insert t v)) = duplicate_elements_count_ t /\
     duplicate_elements_count_ (V1.Remove t v) = duplicate_elements_count_ t /\
     duplicate_elements_count_ (snd (V2.Remove t v)) = duplicate_elements_count_ t) /\
  (forall ops : list V1.op, duplicate_elements_count_ (V1.run ops BSTree_new) = 0) /\
  (forall ops : list V2.op, duplicate_elements_count_ (V2.run ops BSTree_new) = 0).
Proof.
  split; [reflexivity|].
  split; [intros other; split; reflexivity|].
  split.
  - intros t v. destruct (Insert_dup t v), (Remove_dup t v). auto.
  - split; intros ops; [apply run_dup_V1|apply run_dup_V2].
Qed.

(** ** The pool and the pooled allocator *)

Section LinkBlock.

Variable b : nat.

Lemma link_loop_S (m : nat) (blk : list ptr) :
  link_loop b (S m) blk = <[m := Some (b, S m)]> (link_loop b m blk).
Proof.
  unfold link_loop. rewrite seq_S, fold_left_app. reflexivity.
Qed.

Lemma link_loop_length (m : nat) (blk : list ptr) :
  length (link_loop b m blk) = length blk.
Proof.
  induction m as [|m IH]; [reflexivity|].
  now rewrite link_loop_S, length_insert.
Qed.

Lemma link_loop_lookup_lt (m : nat) (blk : list ptr) (i : nat) :
  (i < m)%nat -> (i < length blk)%nat ->
  link_loop b m blk !! i = Some (Some (b, S i)).
Proof.
  induction m as [|m IH]; intros Hi Hlen; [lia|].
  rewrite link_loop_S.
  destruct (Nat.eq_dec i m) as [->|Hne].
  - apply list_lookup_insert_eq. now rewrite link_loop_length.
  - rewrite list_lookup_insert_ne by congruence. apply IH; lia.
Qed.

Lemma link_loop_lookup_ge (m : nat) (blk : list ptr) (i : nat) :
  (m <= i)%nat -> link_loop b m blk !! i = blk !! i.
Proof.
  induction m as [|m IH]; intros Hi; [reflexivity|].
  rewrite link_loop_S, list_lookup_insert_ne by lia. apply IH. lia.
Qed.

(** Every [next] field of a freshly linked block: the following slot of
    the same block, or the old head of the free list for the last one. *)
Lemma link_block_lookup (last : nat) (free : ptr) (i : nat) (q : ptr) :
  link_block b last free (replicate (S last) None) !! i = Some q ->
  ((i < last)%nat /\ q = Some (b, S i)) \/ (i = last /\ q = free).
Proof.
  unfold link_block.
  intros H.
  assert (Hi : (i < S last)%nat).
  { apply lookup_lt_Some in H.
    now rewrite length_insert, link_loop_length, length_replicate in H. }
  destruct (Nat.eq_dec i last) as [->|Hne].
  - rewrite list_lookup_insert_eq in H
      by (rewrite link_loop_length, length_replicate; lia).
    right. split; congruence.
  - rewrite list_lookup_insert_ne in H by congruence.
    rewrite link_loop_lookup_lt in H by (rewrite ?length_replicate; lia).
    left. split; [lia|congruence].
Qed.

Lemma link_block_length (last : nat) (free : ptr) :
  length (link_block b last free (replicate (S last) None)) = S last.
Proof.
  unfold link_block.
  now rewrite length_insert, link_loop_length, length_replicate.
Qed.

End LinkBlock.

Lemma next_of_app_old (blocks : list (list ptr)) (blk : list ptr) (s : slot) :
  (fst s < length blocks)%nat ->
  next_of (blocks ++ [blk]) s = next_of blocks s.
Proof.
  intros H. unfold next_of. now rewrite lookup_app_l.
Qed.

Lemma next_of_app_new (blocks : list (list ptr)) (blk : list ptr) (i : nat) :
  next_of (blocks ++ [blk]) (length blocks, i) = blk !! i.
Proof.
  unfold next_of. simpl. now rewrite list_lookup_middle.
Qed.

Lemma next_of_Some_lt (blocks : list (list ptr)) (s : slot) :
  is_Some (next_of blocks s) -> (fst s < length blocks)%nat.
Proof.
  unfold next_of. intros [q H].
  destruct (blocks !! fst s) eqn:E; [|discriminate].
  now apply lookup_lt_Some in E.
Qed.

Lemma is_Some_next_of_app (blocks : list (list ptr)) (blk : list ptr) (s : slot) :
  is_Some (next_of blocks s) -> is_Some (next_of (blocks ++ [blk]) s).
Proof.
  intros H. rewrite next_of_app_old; [assumption|]. now apply next_of_Some_lt.
Qed.

Lemma next_of_set_next_eq (blocks : list (list ptr)) (s : slot) (q : ptr) :
  is_Some (next_of blocks s) -> next_of (set_next blocks s q) s = Some q.
Proof.
  unfold next_of, set_next. intros [q0 H].
  rewrite list_lookup_alter_eq.
  destruct (blocks !! fst s) as [blk|]; [|discriminate]. simpl.
  apply list_lookup_insert_eq. now apply lookup_lt_Some in H.
Qed.

Lemma next_of_set_next_ne (blocks : list (list ptr)) (s x : slot) (q : ptr) :
  x <> s -> next_of (set_next blocks s q) x = next_of blocks x.
Proof.
  unfold next_of, set_next. intros Hne.
  destruct (Nat.eq_dec (fst s) (fst x)) as [Heq|Hb].
  - rewrite <- Heq, list_lookup_alter_eq.
    destruct (blocks !! fst s) as [blk|]; [|reflexivity]. simpl.
    apply list_lookup_insert_ne. intros Hi. apply Hne.
    destruct x, s. simpl in *. congruence.
  - now rewrite list_lookup_alter_ne.
Qed.

Lemma is_Some_next_of_set_next (blocks : list (list ptr)) (s x : slot) (q : ptr) :
  is_Some (next_of blocks x) -> is_Some (next_of (set_next blocks s q) x).
Proof.
  intros H. destruct (decide (x = s)) as [->|Hne].
  - rewrite next_of_set_next_eq; [eauto|assumption].
  - now rewrite next_of_set_next_ne.
Qed.

(** Growing the pool. *)
Lemma Allocate_Block_wf (pool : Memory_Pool) :
  pool_wf pool ->
  exists pool1 : Memory_Pool,
    Allocate_Block pool = Ret pool1 /\
    pool_wf pool1 /\
    free_list_ pool1 = Some (length (blocks_ pool), O) /\
    length (blocks_ pool1) = S (length (blocks_ pool)).
Proof.
  intros (Hcount & Hfree & Hnext). unfold Allocate_Block.
  destruct (block_count_ pool) as [|last] eqn:Ecount; [contradiction|].
  eexists. split; [reflexivity|].
  unfold pool_wf, is_slot. cbn [free_list_ blocks_ block_count_ block_size_].
  match goal with
  | |- context [link_block ?b0 ?l0 ?f0 ?a0] =>
      remember (link_block b0 l0 f0 a0) as blk eqn:Eblk
  end.
  assert (Hlen : length blk = S last) by (subst blk; apply link_block_length).
  repeat split.
  - discriminate.
  - intros s [= <-]. rewrite next_of_app_new.
    apply lookup_lt_is_Some. lia.
  - intros s q Hs. unfold is_slot in *.
    destruct (Nat.lt_ge_cases (fst s) (length (blocks_ pool))) as [Hold|Hnew].
    + rewrite next_of_app_old in Hs by assumption.
      apply is_Some_next_of_app. eapply Hnext. exact Hs.
    + assert (Hb : fst s = length (blocks_ pool)).
      { assert (is_Some (next_of (blocks_ pool ++ [blk]) s)) as Hsome by eauto.
        apply next_of_Some_lt in Hsome. rewrite length_app in Hsome.
        cbn [length] in Hsome. lia. }
      destruct s as [sb si]. cbn [fst] in Hb. subst sb.
      rewrite next_of_app_new, Eblk in Hs.
      apply link_block_lookup in Hs. destruct Hs as [[Hi Hq]|[Hi Hq]].
      * injection Hq as ->. rewrite next_of_app_new.
        apply lookup_lt_is_Some. lia.
      * apply is_Some_next_of_app. apply Hfree. now symmetry.
  - rewrite length_app. cbn [length]. lia.
Qed.

(** [Allocate()] of the pool hands out the head of the free list (the first
    slot of a new block when the list was empty) and unlinks it. *)
Lemma Pool_Allocate_wf (pool : Memory_Pool) :
  pool_wf pool ->
  exists (s : slot) (pool' : Memory_Pool),
    Pool_Allocate pool = Ret (Some s, pool') /\
    is_slot pool' s /\
    pool_wf pool' /\
    (free_list_ pool = Some s \/
     (free_list_ pool = None /\ s = (length (blocks_ pool), O))) /\
    next_of (blocks_ pool') s = Some (free_list_ pool').
Proof.
  intros Hwf. unfold Pool_Allocate.
  assert (Hgrow : exists pool1 : Memory_Pool,
             (match free_list_ pool with
              | None => Allocate_Block pool
              | Some _ => Ret pool
              end) = Ret pool1 /\ pool_wf pool1 /\
             exists s : slot, free_list_ pool1 = Some s /\
               (free_list_ pool = Some s \/
                (free_list_ pool = None /\ s = (length (blocks_ pool), O)))).
  { destruct (free_list_ pool) as [s|] eqn:E.
    - exists pool. repeat split; try apply Hwf. exists s. rewrite E. auto.
    - destruct (Allocate_Block_wf pool Hwf) as (pool1 & H1 & Hwf1 & Hf1 & _).
      exists pool1. repeat split; try assumption; try apply Hwf1. eauto. }
  destruct Hgrow as (pool1 & -> & (Hc1 & Hf1 & Hn1) & s & Es & Horigin). simpl.
  rewrite Es.
  destruct (Hf1 s Es) as [nxt Hnxt]. rewrite Hnxt.
  exists s. eexists. split; [reflexivity|].
  repeat split; simpl; try assumption.
  - unfold is_slot. simpl. eauto.
  - intros q ->. unfold is_slot. simpl. eapply Hn1. exact Hnxt.
Qed.

(** [Deallocate(ptr)] of the pool pushes the slot on the free list. *)
Lemma Pool_Deallocate_slot (pool : Memory_Pool) (s : slot) :
  is_slot pool s ->
  exists pool' : Memory_Pool,
    Pool_Deallocate pool (Some s) = Ret pool' /\
    free_list_ pool' = Some s /\
    next_of (blocks_ pool') s = Some (free_list_ pool) /\
    (pool_wf pool -> pool_wf pool').
Proof.
  intros Hs. unfold Pool_Deallocate.
  destruct Hs as [q0 Hq0]. rewrite Hq0.
  eexists. split; [reflexivity|]. simpl.
  split; [reflexivity|].
  split; [apply next_of_set_next_eq; eauto|].
  intros (Hc & Hf & Hn).
  repeat split; simpl; try assumption.
  - intros s' [= <-]. unfold is_slot. simpl.
    apply is_Some_next_of_set_next. eauto.
  - intros x q Hx. unfold is_slot in *. simpl in *.
    apply is_Some_next_of_set_next.
    destruct (decide (x = s)) as [->|Hne].
    + rewrite next_of_set_next_eq in Hx by eauto.
      apply Hf. congruence.
    + rewrite next_of_set_next_ne in Hx by assumption. eapply Hn. exact Hx.
Qed.


(** A first allocation from a fresh default pool creates block 0 and hands
    out its first slot; giving the slot back makes it the head of the free
    list again, linked to the slot that was the head. *)
Example fresh_pool_round_trip :
  let st0 : pool_store := [mkPool None [] 8 64] in
  let a := mkAlloc 0 in
  exists st1 st2 : pool_store,
    BSTree_Allocator_new 8 [] = Ret (a, st0) /\
    Allocate a 1 st0 = (Ret (Some (0, 0)%nat), st1) /\
    (free_list_ <$> st1 !! 0%nat) = Some (Some (0, 1)%nat) /\
    Deallocate a (Some (0, 0)%nat) 1 st1 = (Ret tt, st2) /\
    (free_list_ <$> st2 !! 0%nat) = Some (Some (0, 0)%nat) /\
    (st2 !! 0%nat ≫= fun pool => next_of (blocks_ pool) (0, 0)%nat)
      = Some (Some (0, 1)%nat) /\
    Deallocate a None 1 st1 = (Terminate, st1).
Proof.
  simpl. eexists. eexists.
  split; [reflexivity|].
  split; [vm_compute; reflexivity|].
  vm_compute. repeat split.
Qed.

(** The constructor leaves a pool in the state [pool_wf] describes. *)
Lemma Memory_Pool_new_wf (sizeof_T : Z) (block_count : nat) (pool : Memory_Pool) :
  Memory_Pool_new sizeof_T block_count = Ret pool -> pool_wf pool.
Proof.
  destruct block_count as [|n]; simpl; [discriminate|].
  intros [= <-]. repeat split; simpl; intros; discriminate.
Qed.

(** C9.  [Allocate(n)] with [n != 1] throws [bad_alloc] and touches no
    pool, and [Deallocate(p, n)] with [n != 1] returns without touching any
    pool.  [Allocate(1)] is the pool's [Allocate()]: on a pool in the state
    its member functions leave it in, it returns the address of a slot of
    the handle's pool, namely the head of the free list (the first slot of a
    newly added block when the list was empty), and unlinks it.
    [Deallocate(p, 1)] on the address of a slot is the pool's
    [Deallocate(p)]: the slot becomes the head of the free list, linked to
    the old head.  A copy of the handle acts on the same pool. *)
Theorem allocator_is_node_granular (a : BSTree_Allocator) (st : pool_store) :
  (forall (n : Z) (p : ptr), n <> 1 ->
     Allocate a n st = (Throw bad_alloc, st) /\
     Deallocate a p n st = (Ret tt, st)) /\
  (forall pool : Memory_Pool,
     st !! pool_ a = Some pool -> pool_wf pool ->
     exists (s : slot) (pool' : Memory_Pool),
       Allocate a 1 st = (Ret (Some s), <[pool_ a := pool']> st) /\
       Pool_Allocate pool = Ret (Some s, pool') /\
       is_slot pool' s /\
       pool_wf pool' /\
       (free_list_ pool = Some s \/
        (free_list_ pool = None /\ s = (length (blocks_ pool), O))) /\
       next_of (blocks_ pool') s = Some (free_list_ pool')) /\
  (forall (pool : Memory_Pool) (s : slot),
     st !! pool_ a = Some pool -> is_slot pool s ->
     exists pool' : Memory_Pool,
       Deallocate a (Some s) 1 st = (Ret tt, <[pool_ a := pool']> st) /\
       Pool_Deallocate pool (Some s) = Ret pool' /\
       free_list_ pool' = Some s /\
       next_of (blocks_ pool') s = Some (free_list_ pool) /\
       (pool_wf pool -> pool_wf pool')) /\
  (forall (n : Z) (p : ptr),
     Allocate (BSTree_Allocator_copy a) n st = Allocate a n st /\
     Deallocate (BSTree_Allocator_copy a) p n st = Deallocate a p n st).
Proof.
  repeat apply conj.
  - intros n p Hn. unfold Allocate, Deallocate.
    destruct (Z.eqb_spec n 1) as [Heq|_]; [contradiction|]. split; reflexivity.
  - intros pool Hpool Hwf.
    destruct (Pool_Allocate_wf pool Hwf) as (s & pool' & Ha & Hs & Hwf' & Ho & Hn).
    exists s, pool'. unfold Allocate. simpl. rewrite Hpool, Ha. auto 10.
  - intros pool s Hpool Hs.
    destruct (Pool_Deallocate_slot pool s Hs) as (pool' & Hd & Hf & Hn & Hwf').
    exists pool'. unfold Deallocate. rewrite Z.eqb_refl, Hpool, Hd. auto 10.
  - intros n p. split; reflexivity.
Qed.

Lemma allocator_is_node_granular_witness :
  exists (a : BSTree_Allocator) (st : pool_store) (pool : Memory_Pool),
    BSTree_Allocator_new 8 [] = Ret (a, st) /\
    st !! pool_ a = Some pool /\
    pool_wf pool /\
    Allocate a 2 st = (Throw bad_alloc, st) /\
    Deallocate a (Some (0, 0)%nat) 2 st = (Ret tt, st) /\
    exists (s : slot) (pool' : Memory_Pool),
      Allocate a 1 st = (Ret (Some s), <[pool_ a := pool']> st) /\
      is_slot pool' s /\
      exists pool'' : Memory_Pool,
        Deallocate a (Some s) 1 (<[pool_ a := pool']> st) =
          (Ret tt, <[pool_ a := pool'']> (<[pool_ a := pool']> st)) /\
        free_list_ pool'' = Some s.
Proof.
  exists (mkAlloc 0), [mkPool None [] 8 64], (mkPool None [] 8 64).
  assert (Hlook : [mkPool None [] 8 64] !! pool_ (mkAlloc 0) =
                  Some (mkPool None [] 8 64)) by reflexivity.
  assert (Hwf : pool_wf (mkPool None [] 8 64)).
  { apply (Memory_Pool_new_wf 8 64). reflexivity. }
  assert (Hn : 2 <> 1) by lia.
  split; [reflexivity|]. split; [exact Hlook|]. split; [exact Hwf|].
  destruct (allocator_is_node_granular (mkAlloc 0) [mkPool None [] 8 64])
    as (Hne & Hone & _ & _).
  destruct (Hne 2 (Some (0, 0)%nat) Hn) as [Ha2 Hd2].
  split; [exact Ha2|]. split; [exact Hd2|].
  destruct (Hone _ Hlook Hwf) as (s & pool' & Ha1 & _ & Hs & _).
  exists s, pool'. split; [exact Ha1|]. split; [exact Hs|].
  destruct (allocator_is_node_granular (mkAlloc 0)
              (<[pool_ (mkAlloc 0) := pool']> [mkPool None [] 8 64]))
    as (_ & _ & Hdealloc & _).
  destruct (Hdealloc pool' s eq_refl Hs) as (pool'' & Hd1 & _ & Hf & _).
  exists pool''. split; [exact Hd1|exact Hf].
Defined.

(** ** Further properties of the tree engine *)

(** [Search] after [Insert]: the inserted value is found, and for every other
    value the answer is what it was. *)
Theorem Search_after_Insert (node : NodePtr) (value x : T) :
  Search_node (V1.Insert_node node value) x = (x =? value) || Search_node node x.
Proof.
  induction node as [|d l IHl r IHr c]; simpl.
  - rewrite (Z.eqb_sym value x). destruct (x =? value), (x <? value); reflexivity.
  - rewrite Z.gtb_ltb.
    destruct (Z.ltb_spec value d) as [Hlt|Hge]; simpl.
    + rewrite IHl.
      destruct (Z.eqb_spec d x), (Z.eqb_spec x value), (Z.ltb_spec x d);
        simpl; try reflexivity; lia.
    + destruct (Z.ltb_spec d value) as [Hgt|Hle]; simpl.
      * rewrite IHr.
        destruct (Z.eqb_spec d x), (Z.eqb_spec x value), (Z.ltb_spec x d);
          simpl; try reflexivity; lia.
      * assert (value = d) by lia. subst d.
        destruct (Z.eqb_spec value x), (Z.eqb_spec x value);
          simpl; try reflexivity; congruence.
Qed.

(** [Insert] on the counter of the inserted value: a new node starts at 0,
    an existing node is incremented modulo [2^64]. *)
Theorem count_after_Insert (node : NodePtr) (value : T) :
  count_of (V1.Insert_node node value) value =
  Some match count_of node value with
       | Some c => size_t_wrap (c + 1)
       | None => 0
       end.
Proof.
  induction node as [|d l IHl r IHr c]; simpl.
  - now rewrite Z.eqb_refl.
  - rewrite Z.gtb_ltb.
    destruct (Z.ltb_spec value d) as [Hlt|Hge]; simpl.
    + destruct (Z.eqb_spec d value); [lia|].
      destruct (Z.ltb_spec value d); [exact IHl|lia].
    + destruct (Z.ltb_spec d value) as [Hgt|Hle]; simpl.
      * destruct (Z.eqb_spec d value); [lia|].
        destruct (Z.ltb_spec value d); [lia|exact IHr].
      * destruct (Z.eqb_spec d value); [reflexivity|lia].
Qed.

(** On a search tree, [Search] answers membership in the in-order sequence. *)
Theorem Search_iff_In (node : NodePtr) (value : T) :
  bst node ->
  (Search_node node value = true <-> In value (Inorder node)).
Proof.
  induction node as [|d l IHl r IHr c]; simpl.
  - intros _. split; [discriminate|tauto].
  - intros (Hl & Hr & Bl & Br).
    rewrite List.Forall_forall in Hl, Hr.
    rewrite in_app_iff. simpl.
    destruct (Z.eqb_spec d value) as [Heq|Hne].
    + split; auto.
    + destruct (Z.ltb_spec value d) as [Hlt|Hge].
      * rewrite (IHl Bl). split; [tauto|].
        intros [H|[H|H]]; [assumption|contradiction|].
        specialize (Hr _ H). lia.
      * rewrite (IHr Br). split; [tauto|].
        intros [H|[H|H]]; [|contradiction|assumption].
        specialize (Hl _ H). lia.
Qed.

Lemma Search_iff_In_witness :
  bst (root_ (V1.Insert_all [5; 3; 8] BSTree_new)) /\
  (Search_node (root_ (V1.Insert_all [5; 3; 8] BSTree_new)) 8 = true <->
   In 8 (Inorder (root_ (V1.Insert_all [5; 3; 8] BSTree_new)))).
Proof.
  assert (H : bst (root_ (V1.Insert_all [5; 3; 8] BSTree_new))).
  { apply Insert_all_bst. exact I. }
  split; [exact H|].
  exact (Search_iff_In (root_ (V1.Insert_all [5; 3; 8] BSTree_new)) 8 H).
Defined.

(** [Copy] rebuilds the tree node for node: same shape, values and counters,
    hence the same in-order sequence; the copy constructor yields an object
    equal to its source. *)
Theorem Copy_mirrors_source :
  (forall node : NodePtr, Copy node = node) /\
  (forall node : NodePtr, Inorder (Copy node) = Inorder node) /\
  (forall other : BSTree, V2.BSTree_copy other = other).
Proof.
  assert (H : forall node : NodePtr, Copy node = node).
  { induction node as [|d l IHl r IHr c]; simpl; congruence. }
  split; [exact H|]. split.
  - intros node. now rewrite H.
  - intros [r d t]. unfold V2.BSTree_copy. simpl. now rewrite H.
Qed.

(** The move constructor hands the whole content to the new object and
    leaves the source with a null root: nothing is found in it any more. *)
Theorem move_leaves_source_empty (temp : BSTree) :
  fst (V2.BSTree_move temp) = temp /\
  root_ (snd (V2.BSTree_move temp)) = nullptr /\
  (forall v : T, V2.Search (snd (V2.BSTree_move temp)) v = false) /\
  Inorder (root_ (snd (V2.BSTree_move temp))) = [].
Proof.
  destruct temp as [r d t]. repeat split.
Qed.

(** ** Further properties of the pool *)

(** The two argument checks of the pool: a zero block count is refused by
    the constructor, a null pointer by [Deallocate]; neither changes a pool. *)
Theorem pool_rejects_invalid_arguments :
  (forall sizeof_T : Z,
     Memory_Pool_new sizeof_T 0 = Throw (invalid_argument zero_block_count)) /\
  (forall (sizeof_T : Z) (n : nat),
     Memory_Pool_new sizeof_T (S n) = Ret (mkPool None [] sizeof_T (S n))) /\
  (forall pool : Memory_Pool,
     Pool_Deallocate pool None = Throw (invalid_argument null_deallocate)).
Proof.
  repeat split.
Qed.



(** ** Insertion: nodes, counters, order of insertion *)

(** A node is created only for a value that [Search] does not find; a
    repeated value changes neither the number of nodes nor the traversal. *)
Theorem Insert_creates_node_iff_absent (node : NodePtr) (value : T) :
  node_count (V1.Insert_node node value) =
    (if Search_node node value then node_count node else S (node_count node)) /\
  (Search_node node value = true ->
   Inorder (V1.Insert_node node value) = Inorder node).
Proof.
  induction node as [|d l [IHl1 IHl2] r [IHr1 IHr2] c]; simpl.
  - split; [reflexivity|discriminate].
  - rewrite Z.gtb_ltb.
    destruct (Z.eqb_spec d value) as [->|Hne].
    + rewrite !Z.ltb_irrefl. simpl. auto.
    + destruct (Z.ltb_spec value d) as [Hlt|Hge]; simpl.
      * rewrite IHl1. split.
        -- destruct (Search_node l value); lia.
        -- intros H. now rewrite IHl2.
      * destruct (Z.ltb_spec d value) as [Hgt|Hle]; [|lia]. simpl.
        rewrite IHr1. split.
        -- destruct (Search_node r value); lia.
        -- intros H. now rewrite IHr2.
Qed.

Lemma Insert_creates_node_iff_absent_witness :
  Search_node (root_ (V1.Insert_all [5; 3; 8] BSTree_new)) 3 = true /\
  Inorder (V1.Insert_node (root_ (V1.Insert_all [5; 3; 8] BSTree_new)) 3) =
  Inorder (root_ (V1.Insert_all [5; 3; 8] BSTree_new)).
Proof.
  assert (H : Search_node (root_ (V1.Insert_all [5; 3; 8] BSTree_new)) 3 = true)
    by reflexivity.
  split; [exact H|].
  exact (proj2 (Insert_creates_node_iff_absent
                  (root_ (V1.Insert_all [5; 3; 8] BSTree_new)) 3) H).
Defined.

Lemma count_of_Insert_node (node : NodePtr) (value x : T) :
  count_of (V1.Insert_node node value) x =
  if x =? value then
    Some match count_of node value with
         | Some c => size_t_wrap (c + 1)
         | None => 0
         end
  else count_of node x.
Proof.
  induction node as [|d l IHl r IHr c]; simpl.
  - rewrite (Z.eqb_sym value x).
    destruct (Z.eqb_spec x value); [reflexivity|].
    now destruct (x <? value).
  - rewrite Z.gtb_ltb.
    destruct (Z.ltb_spec value d) as [Hlt|Hge]; simpl.
    + rewrite IHl.
      destruct (Z.eqb_spec x value) as [Hx|Hx].
      * subst x.
        destruct (Z.eqb_spec d value); [lia|].
        destruct (Z.ltb_spec value d); [reflexivity|lia].
      * reflexivity.
    + destruct (Z.ltb_spec d value) as [Hgt|Hle]; simpl.
      * rewrite IHr.
        destruct (Z.eqb_spec x value) as [Hx|Hx].
        -- subst x.
           destruct (Z.eqb_spec d value); [lia|].
           destruct (Z.ltb_spec value d); [lia|reflexivity].
        -- reflexivity.
      * assert (value = d) by lia. subst d.
        destruct (Z.eqb_spec x value) as [Hx|Hx].
        -- subst x. now rewrite Z.eqb_refl.
        -- destruct (Z.eqb_spec value x); [congruence|reflexivity].
Qed.

Lemma Insert_all_snoc (values : list T) (v : T) (t : BSTree) :
  V1.Insert_all (values ++ [v]) t = V1.Insert (V1.Insert_all values t) v.
Proof.
  unfold V1.Insert_all. now rewrite fold_left_app.
Qed.

(** After any sequence of insertions into an empty tree, the counter of a
    value is the number of times it was inserted minus one (modulo [2^64]),
    and a value that was never inserted has no node. *)
Theorem count_after_Insert_all (values : list T) (v : T) :
  count_of (root_ (V1.Insert_all values BSTree_new)) v =
  match count_occ Z.eq_dec values v with
  | O => None
  | S k => Some (size_t_wrap (Z.of_nat k))
  end.
Proof.
  induction values as [|x values IH] using rev_ind.
  - reflexivity.
  - rewrite Insert_all_snoc, Insert_root, count_of_Insert_node, count_occ_app.
    simpl count_occ.
    destruct (Z.eqb_spec v x) as [->|Hne].
    + destruct (Z.eq_dec x x) as [_|Hc]; [|contradiction].
      rewrite IH. rewrite Nat.add_1_r. unfold T in *.
      destruct (count_occ Z.eq_dec values x) as [|k].
      * reflexivity.
      * f_equal. unfold size_t_wrap.
        rewrite Zplus_mod_idemp_l. f_equal. lia.
    + destruct (Z.eq_dec x v) as [Hc|_]; [congruence|].
      rewrite Nat.add_0_r. exact IH.
Qed.

Lemma sorted_same_elements (l1 l2 : list Z) :
  StronglySorted Z.lt l1 -> StronglySorted Z.lt l2 ->
  (forall x : Z, In x l1 <-> In x l2) -> l1 = l2.
Proof.
  intros S1. revert l2. induction S1 as [|a l1 S1 IH Ha]; intros l2 S2 Hin.
  - destruct l2 as [|b l2]; [reflexivity|].
    exfalso. apply (proj2 (Hin b)). now left.
  - destruct S2 as [|b l2 S2 Hb].
    + exfalso. apply (proj1 (Hin a)). now left.
    + rewrite List.Forall_forall in Ha, Hb.
      assert (a = b).
      { destruct (proj1 (Hin a) (or_introl eq_refl)) as [->|Hab]; [reflexivity|].
        destruct (proj2 (Hin b) (or_introl eq_refl)) as [->|Hba]; [reflexivity|].
        specialize (Ha _ Hba). specialize (Hb _ Hab). lia. }
      subst b. f_equal. apply IH; [assumption|].
      intros x. split; intros Hx.
      * destruct (proj1 (Hin x) (or_intror Hx)) as [<-|H]; [|assumption].
        specialize (Ha _ Hx). lia.
      * destruct (proj2 (Hin x) (or_intror Hx)) as [<-|H]; [|assumption].
        specialize (Hb _ Hx). lia.
Qed.

(** The traversal of a tree built by insertions depends only on which
    values were inserted, not on their order nor on how often each was. *)
Theorem traversal_independent_of_insertion_order (values values' : list T) :
  (forall x : T, In x values <-> In x values') ->
  V1.Print_in_order (V1.Insert_all values BSTree_new) =
  V1.Print_in_order (V1.Insert_all values' BSTree_new).
Proof.
  intros Hsame. unfold V1.Print_in_order.
  apply sorted_same_elements.
  - apply bst_Inorder_sorted, Insert_all_bst. exact I.
  - apply bst_Inorder_sorted, Insert_all_bst. exact I.
  - intros x. rewrite !Insert_all_root_In. simpl. rewrite Hsame. tauto.
Qed.

Lemma traversal_independent_of_insertion_order_witness :
  (forall x : T, In x [5; 3; 8; 3] <-> In x [8; 5; 3]) /\
  V1.Print_in_order (V1.Insert_all [5; 3; 8; 3] BSTree_new) =
  V1.Print_in_order (V1.Insert_all [8; 5; 3] BSTree_new).
Proof.
  assert (H : forall x : T, In x [5; 3; 8; 3] <-> In x [8; 5; 3]).
  { intros x. simpl. tauto. }
  split; [exact H|].
  exact (traversal_independent_of_insertion_order [5; 3; 8; 3] [8; 5; 3] H).
Defined.

(** ** Removal: what stays, what goes *)

Lemma Search_node_true_In (node : NodePtr) (value : T) :
  Search_node node value = true -> In value (Inorder node).
Proof.
  induction node as [|d l IHl r IHr c]; simpl; [discriminate|].
  rewrite in_app_iff. simpl.
  destruct (Z.eqb_spec d value) as [->|Hne]; [auto|].
  destruct (value <? d); auto.
Qed.

Lemma Remove_node_In (node : NodePtr) (value : T) (total : Z) (x : T) :
  In x (Inorder (fst (Remove_node node value total))) -> In x (Inorder node).
Proof.
  induction node as [|d l IHl r IHr c]; simpl; [tauto|].
  rewrite Z.gtb_ltb.
  destruct (value <? d).
  - destruct (Remove_node l value total) as [l' tot']. simpl in *.
    rewrite !in_app_iff. simpl. tauto.
  - destruct (d <? value).
    + destruct (Remove_node r value total) as [r' tot']. simpl in *.
      rewrite !in_app_iff. simpl. tauto.
    + destruct (c >? 1); simpl; [tauto|].
      rewrite in_app_iff. simpl.
      destruct l, r; simpl; rewrite ?in_app_iff; simpl; tauto.
Qed.

Lemma Remove_node_bst (node : NodePtr) (value : T) (total : Z) :
  bst node ->
  bst (fst (Remove_node node value total)) /\
  (forall x : T,
     In x (Inorder (fst (Remove_node node value total))) -> In x (Inorder node)).
Proof.
  intros Hb. split; [|intros x; apply Remove_node_In].
  induction node as [|d l IHl r IHr c]; simpl; [exact I|].
  destruct Hb as (Hl & Hr & Bl & Br).
  rewrite Z.gtb_ltb.
  destruct (value <? d).
  - pose proof (Remove_node_In l value total) as Hin.
    destruct (Remove_node l value total) as [l' tot']. simpl in *.
    repeat split; auto.
    rewrite List.Forall_forall in *. auto.
  - destruct (d <? value).
    + pose proof (Remove_node_In r value total) as Hin.
      destruct (Remove_node r value total) as [r' tot']. simpl in *.
      repeat split; auto.
      rewrite List.Forall_forall in *. auto.
    + destruct (c >? 1); simpl.
      * repeat split; auto.
      * destruct l, r; simpl; auto.
Qed.

(** [Remove] keeps the search-tree ordering and never brings a value into
    the tree, whichever of its branches runs. *)
Theorem Remove_keeps_ordering (node : NodePtr) (value : T) (total : Z) :
  bst node ->
  bst (fst (Remove_node node value total)) /\
  (forall x : T,
     In x (Inorder (fst (Remove_node node value total))) -> In x (Inorder node)).
Proof.
  exact (Remove_node_bst node value total).
Qed.

Lemma Remove_keeps_ordering_witness :
  bst (root_ (V1.Insert_all [5; 2; 8; 6; 9] BSTree_new)) /\
  bst (fst (Remove_node (root_ (V1.Insert_all [5; 2; 8; 6; 9] BSTree_new)) 8 0)).
Proof.
  assert (H : bst (root_ (V1.Insert_all [5; 2; 8; 6; 9] BSTree_new))).
  { apply Insert_all_bst. exact I. }
  split; [exact H|].
  exact (proj1 (Remove_keeps_ordering _ 8 0 H)).
Defined.

(** On a search tree, [Search(value)] after [Remove(value)] is true exactly
    when the node's counter was greater than 1 before the call. *)
Theorem Search_after_Remove (node : NodePtr) (value : T) (total : Z) :
  bst node ->
  Search_node (fst (Remove_node node value total)) value =
  match count_of node value with
  | Some c => c >? 1
  | None => false
  end.
Proof.
  induction node as [|d l IHl r IHr c]; simpl; [reflexivity|].
  intros (Hl & Hr & Bl & Br).
  rewrite Z.gtb_ltb.
  destruct (Z.eqb_spec d value) as [->|Hne].
  - rewrite !Z.ltb_irrefl.
    destruct (c >? 1) eqn:Hc; simpl.
    + now rewrite Z.eqb_refl.
    + assert (Hnl : Search_node l value = false).
      { destruct (Search_node l value) eqn:E; [|reflexivity].
        apply Search_node_true_In in E.
        rewrite List.Forall_forall in Hl. specialize (Hl _ E). lia. }
      assert (Hnr : Search_node r value = false).
      { destruct (Search_node r value) eqn:E; [|reflexivity].
        apply Search_node_true_In in E.
        rewrite List.Forall_forall in Hr. specialize (Hr _ E). lia. }
      destruct l, r; auto.
  - destruct (Z.ltb_spec value d) as [Hlt|Hge].
    + specialize (IHl Bl).
      destruct (Remove_node l value total) as [l' tot']. simpl in *.
      destruct (Z.eqb_spec d value); [contradiction|].
      destruct (Z.ltb_spec value d); [exact IHl|lia].
    + destruct (Z.ltb_spec d value) as [Hgt|Hle]; [|lia].
      specialize (IHr Br).
      destruct (Remove_node r value total) as [r' tot']. simpl in *.
      destruct (Z.eqb_spec d value); [contradiction|].
      destruct (Z.ltb_spec value d); [lia|exact IHr].
Qed.

Lemma Search_after_Remove_witness :
  bst (root_ (V1.Insert_all [5; 3; 8; 3; 3] BSTree_new)) /\
  Search_node (fst (Remove_node (root_ (V1.Insert_all [5; 3; 8; 3; 3] BSTree_new)) 3 0)) 3 =
  match count_of (root_ (V1.Insert_all [5; 3; 8; 3; 3] BSTree_new)) 3 with
  | Some c => c >? 1
  | None => false
  end.
Proof.
  assert (H : bst (root_ (V1.Insert_all [5; 3; 8; 3; 3] BSTree_new))).
  { apply Insert_all_bst. exact I. }
  split; [exact H|].
  exact (Search_after_Remove _ 3 0 H).
Defined.

Lemma remove_not_in (v : Z) (l : list Z) :
  ~ In v l -> List.remove Z.eq_dec v l = l.
Proof.
  induction l as [|a l IH]; simpl; [reflexivity|].
  intros H. destruct (Z.eq_dec v a) as [->|Hne]; [tauto|].
  f_equal. apply IH. tauto.
Qed.

Lemma remove_middle (v d : Z) (l1 l2 : list Z) :
  List.remove Z.eq_dec v (l1 ++ d :: l2) =
  List.remove Z.eq_dec v l1 ++ List.remove Z.eq_dec v (d :: l2).
Proof.
  induction l1 as [|a l1 IH]; simpl; [reflexivity|].
  destruct (Z.eq_dec v a); [exact IH|]. simpl. now rewrite IH.
Qed.

(** On a search tree, when the node that [Remove(value)] matches has at
    most one child, the traversal after the call is the old one if the
    counter was greater than 1 (or the value is absent), and the old one
    without [value] otherwise: no other value is lost. *)
Theorem Remove_at_most_one_child (node : NodePtr) (value : T) (total : Z) :
  bst node -> two_children_match node value = false ->
  Inorder (fst (Remove_node node value total)) =
  match count_of node value with
  | Some c => if c >? 1 then Inorder node
              else List.remove Z.eq_dec value (Inorder node)
  | None => Inorder node
  end.
Proof.
  induction node as [|d l IHl r IHr c]; simpl; [reflexivity|].
  intros (Hl & Hr & Bl & Br). rewrite !(Z.gtb_ltb value d).
  rewrite List.Forall_forall in Hl, Hr.
  assert (Hnl : forall x, x >= d -> ~ In x (Inorder l)).
  { intros x Hx Hin. specialize (Hl _ Hin). lia. }
  assert (Hnr : forall x, x <= d -> ~ In x (Inorder r)).
  { intros x Hx Hin. specialize (Hr _ Hin). lia. }
  destruct (Z.eqb_spec d value) as [Heq|Hne].
  - subst d. rewrite !Z.ltb_irrefl. intros Htwo.
    destruct (c >? 1); simpl; [reflexivity|].
    rewrite remove_middle. simpl.
    destruct (Z.eq_dec value value) as [_|Hc]; [|contradiction].
    rewrite !remove_not_in by (first [apply Hnl | apply Hnr]; lia).
    destruct l, r; simpl; rewrite ?app_nil_r; try reflexivity; discriminate.
  - destruct (Z.ltb_spec value d) as [Hlt|Hge].
    + intros Htwo. specialize (IHl Bl Htwo).
      destruct (Remove_node l value total) as [l' tot']. simpl in *.
      rewrite IHl.
      destruct (count_of l value) as [cl|]; [|reflexivity].
      destruct (cl >? 1); [reflexivity|].
      rewrite remove_middle. simpl.
      destruct (Z.eq_dec value d) as [Hc|_]; [congruence|].
      rewrite (remove_not_in value (Inorder r)) by (apply Hnr; lia).
      reflexivity.
    + destruct (Z.ltb_spec d value) as [Hgt|Hle]; [|lia].
      intros Htwo. specialize (IHr Br Htwo).
      destruct (Remove_node r value total) as [r' tot']. simpl in *.
      rewrite IHr.
      destruct (count_of r value) as [cr|]; [|reflexivity].
      destruct (cr >? 1); [reflexivity|].
      rewrite remove_middle. simpl.
      destruct (Z.eq_dec value d) as [Hc|_]; [congruence|].
      rewrite (remove_not_in value (Inorder l)) by (apply Hnl; lia).
      reflexivity.
Qed.

Lemma Remove_at_most_one_child_witness :
  bst (root_ (V1.Insert_all [5; 2; 8; 6] BSTree_new)) /\
  two_children_match (root_ (V1.Insert_all [5; 2; 8; 6] BSTree_new)) 8 = false /\
  Inorder (fst (Remove_node (root_ (V1.Insert_all [5; 2; 8; 6] BSTree_new)) 8 0)) =
  match count_of (root_ (V1.Insert_all [5; 2; 8; 6] BSTree_new)) 8 with
  | Some c => if c >? 1 then Inorder (root_ (V1.Insert_all [5; 2; 8; 6] BSTree_new))
              else List.remove Z.eq_dec 8
                     (Inorder (root_ (V1.Insert_all [5; 2; 8; 6] BSTree_new)))
  | None => Inorder (root_ (V1.Insert_all [5; 2; 8; 6] BSTree_new))
  end.
Proof.
  assert (H : bst (root_ (V1.Insert_all [5; 2; 8; 6] BSTree_new))).
  { apply Insert_all_bst. exact I. }
  assert (H2 : two_children_match (root_ (V1.Insert_all [5; 2; 8; 6] BSTree_new)) 8
               = false) by reflexivity.
  split; [exact H|]. split; [exact H2|].
  exact (Remove_at_most_one_child _ 8 0 H H2).
Defined.

(** Version 1: [Remove] of a value that [Search] does not find returns the
    tree as it is, counters included, and reports nothing. *)
Theorem Remove_absent_is_silent (t : BSTree) (value : T) :
  V1.Search t value = false -> V1.Remove t value = t.
Proof.
  destruct t as [root dup total]. unfold V1.Search, V1.Remove. simpl.
  intros H.
  assert (Hn : Remove_node root value total = (root, total)).
  { clear dup. induction root as [|d l IHl r IHr c]; simpl in *; [reflexivity|].
    rewrite Z.gtb_ltb.
    destruct (Z.eqb_spec d value) as [Heq|Hne]; [discriminate|].
    destruct (Z.ltb_spec value d) as [Hlt|Hge].
    - now rewrite (IHl H).
    - destruct (Z.ltb_spec d value) as [Hgt|Hle]; [|lia].
      now rewrite (IHr H). }
  now rewrite Hn.
Qed.

Lemma Remove_absent_is_silent_witness :
  V1.Search (V1.Insert_all [5; 3; 8] BSTree_new) 4 = false /\
  V1.Remove (V1.Insert_all [5; 3; 8] BSTree_new) 4 = V1.Insert_all [5; 3; 8] BSTree_new.
Proof.
  assert (H : V1.Search (V1.Insert_all [5; 3; 8] BSTree_new) 4 = false) by reflexivity.
  split; [exact H|].
  exact (Remove_absent_is_silent _ 4 H).
Defined.

(** ** The two versions side by side *)

Lemma Insert_non_sentinel (t : BSTree) (value : T) :
  value <> T_default -> V2.Insert t value = (Ret tt, V1.Insert t value).
Proof.
  intros Hne. unfold V2.Insert.
  destruct (Z.eqb_spec value T_default) as [Heq|_]; [contradiction|].
  now rewrite Insert_node_depth_zero.
Qed.

(** A run of [Insert] calls of the error-handling version builds the tree
    version 1 builds as long as no value is the sentinel; at the first
    sentinel it stops with [invalid_argument], and the tree then holds
    exactly the values before it. *)
Theorem Insert_all_stops_at_sentinel (pre post : list T) (t : BSTree) :
  Forall (fun v => v <> T_default) pre ->
  V2.Insert_all pre t = (Ret tt, V1.Insert_all pre t) /\
  V2.Insert_all (pre ++ T_default :: post) t =
    (Throw (invalid_argument empty_value), V1.Insert_all pre t).
Proof.
  intros Hpre. revert t.
  induction Hpre as [|v pre Hv Hpre IH]; intros t.
  - split; reflexivity.
  - simpl. rewrite (Insert_non_sentinel t v Hv). apply IH.
Qed.

Lemma Insert_all_stops_at_sentinel_witness :
  Forall (fun v => v <> T_default) [5; 3] /\
  V2.Insert_all ([5; 3] ++ T_default :: [8]) BSTree_new =
    (Throw (invalid_argument empty_value), V1.Insert_all [5; 3] BSTree_new).
Proof.
  assert (H : Forall (fun v => v <> T_default) [5; 3]).
  { repeat constructor; unfold T_default; lia. }
  split; [exact H|].
  exact (proj2 (Insert_all_stops_at_sentinel [5; 3] [8] BSTree_new H)).
Defined.

(** ** [Find_min] and the positions of the iterator *)

Lemma Push_left_head (node : NodePtr) (stack : list NodePtr) :
  node <> nullptr ->
  exists (dm : T) (rm : NodePtr) (cm : Z) (rest : list NodePtr) (tl : list T),
    Find_min node = Ret (Node dm nullptr rm cm) /\
    Push_left node stack = Node dm nullptr rm cm :: rest /\
    Inorder node = dm :: tl.
Proof.
  revert stack. induction node as [|d l IHl r IHr c]; intros stack Hn.
  - contradiction.
  - destruct l as [|dl ll rl cl].
    + exists d, r, c, stack, (Inorder r). repeat split.
    + destruct (IHl (Node d (Node dl ll rl cl) r c :: stack) ltac:(discriminate))
        as (dm & rm & cm & rest & tl & Hf & Hp & Hi).
      exists dm, rm, cm, rest, (tl ++ d :: Inorder r).
      split; [exact Hf|]. split; [exact Hp|].
      change (Inorder (Node d (Node dl ll rl cl) r c))
        with (Inorder (Node dl ll rl cl) ++ d :: Inorder r).
      now rewrite Hi.
Qed.

(** On a non-empty tree [Find_min] returns the node [begin()] is positioned
    on: it has no left child, its value is the first of the traversal, and on
    a search tree every other value is larger. *)
Theorem Find_min_is_begin (d : T) (l r : NodePtr) (c : Z) :
  exists (dm : T) (rm : NodePtr) (cm : Z) (tl : list T),
    Find_min (Node d l r c) = Ret (Node dm nullptr rm cm) /\
    current_ (Tree_Iterator_from (Node d l r c)) = Node dm nullptr rm cm /\
    Inorder (Node d l r c) = dm :: tl /\
    (bst (Node d l r c) -> Forall (fun x => dm < x) tl).
Proof.
  destruct (Push_left_head (Node d l r c) [] ltac:(discriminate))
    as (dm & rm & cm & rest & tl & Hf & Hp & Hi).
  exists dm, rm, cm, tl. split; [exact Hf|]. split.
  - unfold Tree_Iterator_from. cbn [Node_Stack Tree_Iterator_default].
    now rewrite Hp.
  - split; [exact Hi|].
    intros Hb. apply bst_Inorder_sorted in Hb. rewrite Hi in Hb.
    now inversion Hb.
Qed.

Lemma iter_values_end (it : Tree_Iterator) :
  iter_wf it -> is_end it = true -> iter_values it = [].
Proof.
  destruct it as [stack cur]. unfold iter_wf, is_end, iter_values. simpl.
  intros [_ Hnil] Hend. destruct cur; [|discriminate].
  now rewrite (Hnil eq_refl).
Qed.

Lemma deref_values (it : Tree_Iterator) :
  iter_wf it ->
  deref it = match iter_values it with
             | x :: _ => Ret x
             | [] => Undefined
             end.
Proof.
  destruct it as [stack cur]. unfold iter_wf, deref, iter_values. simpl.
  intros [_ Hnil]. destruct cur; [|reflexivity].
  now rewrite (Hnil eq_refl).
Qed.

Lemma advance_values (k : nat) (it : Tree_Iterator) :
  iter_wf it -> (k <= length (iter_values it))%nat ->
  exists it' : Tree_Iterator,
    advance k it = Ret it' /\ iter_wf it' /\
    iter_values it' = drop k (iter_values it).
Proof.
  revert it. induction k as [|k IH]; intros it Hwf Hk.
  - exists it. auto.
  - destruct (is_end it) eqn:Hend.
    + rewrite (iter_values_end it Hwf Hend) in Hk. simpl in Hk. lia.
    + destruct (incr_positioned it Hwf Hend) as (d & it1 & _ & Hi & Hwf1 & Hv).
      rewrite Hv in Hk. simpl in Hk.
      destruct (IH it1 Hwf1 ltac:(lia)) as (it' & Ha & Hwf' & Hv').
      exists it'. simpl. rewrite Hi. simpl.
      split; [exact Ha|]. split; [exact Hwf'|].
      rewrite Hv. exact Hv'.
Qed.

Lemma head_drop (k : nat) (l : list T) :
  match drop k l with
  | x :: _ => Some x
  | [] => None
  end = l !! k.
Proof.
  revert l. induction k as [|k IH]; intros [|a l]; simpl; auto.
Qed.

(** For every tree, [k] increments from [begin()] with [k] at most the
    number of nodes all return; the iterator then shows the [k]-th value of
    [Print_in_order] (counting from 0), it equals [end()] exactly when [k] is
    the number of nodes, and from there one more increment throws
    [out_of_range]. *)
Theorem advance_positions (t : BSTree) (k : nat) :
  (k <= node_count (root_ t))%nat ->
  exists it : Tree_Iterator,
    advance k (begin_ t) = Ret it /\
    deref it = match V1.Print_in_order t !! k with
               | Some x => Ret x
               | None => Undefined
               end /\
    (is_end it = true <-> k = node_count (root_ t)) /\
    (k = node_count (root_ t) ->
     advance (S k) (begin_ t) = Throw (out_of_range iteration_beyond_tree)).
Proof.
  intros Hk. unfold begin_, V1.Print_in_order.
  pose proof (Tree_Iterator_from_wf (root_ t)) as Hwf.
  pose proof (Tree_Iterator_from_values (root_ t)) as Hv.
  destruct (advance_values k (Tree_Iterator_from (root_ t)) Hwf)
    as (it & Ha & Hwf' & Hv').
  { rewrite Hv, Inorder_length. exact Hk. }
  rewrite Hv in Hv'.
  exists it. split; [exact Ha|].
  assert (Hend : is_end it = true <-> k = node_count (root_ t)).
  { split.
    - intros He. pose proof (iter_values_end it Hwf' He) as Hnil.
      rewrite Hnil in Hv'.
      assert (Hlen : length (drop k (Inorder (root_ t))) = O) by now rewrite <- Hv'.
      rewrite length_drop, Inorder_length in Hlen. lia.
    - intros ->. rewrite <- Inorder_length, drop_all in Hv'.
      destruct it as [stack cur]. unfold is_end, iter_values in *. simpl in *.
      destruct cur; [reflexivity|discriminate]. }
  split.
  - rewrite (deref_values it Hwf'), Hv', <- head_drop.
    now destruct (drop k (Inorder (root_ t))).
  - split; [exact Hend|].
    intros Heq. apply Hend in Heq.
    change (advance (S k) (Tree_Iterator_from (root_ t)))
      with (let* it' := incr (Tree_Iterator_from (root_ t)) in advance k it').
    clear -Ha Heq. revert Ha. generalize (Tree_Iterator_from (root_ t)).
    induction k as [|k IH]; intros it0 Ha.
    + simpl in Ha. injection Ha as ->.
      destruct it as [stack cur]. unfold is_end in Heq. simpl in Heq.
      destruct cur; [reflexivity|discriminate].
    + simpl in Ha. destruct (incr it0) as [it1| | |] eqn:Hi; simpl in *;
        try discriminate.
      apply (IH it1 Ha).
Qed.

Lemma advance_positions_witness :
  Nat.le 2 (node_count (root_ (V1.Insert_all [5; 3; 8] BSTree_new))) /\
  exists it : Tree_Iterator,
    advance 2 (begin_ (V1.Insert_all [5; 3; 8] BSTree_new)) = Ret it /\
    deref it = match V1.Print_in_order (V1.Insert_all [5; 3; 8] BSTree_new) !! 2%nat with
               | Some x => Ret x
               | None => Undefined
               end.
Proof.
  assert (H : Nat.le 2 (node_count (root_ (V1.Insert_all [5; 3; 8] BSTree_new)))).
  { vm_compute. repeat constructor. }
  split; [exact H|].
  destruct (advance_positions (V1.Insert_all [5; 3; 8] BSTree_new) 2 H)
    as (it & Ha & Hd & _).
  exists it. split; [exact Ha|exact Hd].
Defined.

(** ** Assignment and destruction *)

Lemma Copy_id (node : NodePtr) : Copy node = node.
Proof.
  induction node as [|d l IHl r IHr c]; simpl; congruence.
Qed.

Lemma Clear_Permutation (node : NodePtr) : Permutation (Clear node) (Inorder node).
Proof.
  induction node as [|d l IHl r IHr c]; simpl; [constructor|].
  rewrite IHl, IHr. apply Permutation_app_head.
  symmetry. apply Permutation_cons_append.
Qed.

(** Assignment from another tree deletes every node of the old content
    exactly once and installs the source's content (a deep copy, or the
    source's own nodes when moving), but it leaves both counter fields of
    the target as they were: they are not taken from the source, unlike in
    the copy constructor.  A moved-from tree has a null root and also keeps
    its counters.  Self-assignment changes nothing. *)
Theorem assignment_replaces_content_not_counters (this other : BSTree) :
  (let r := copy_assign this (Some other) in
   root_ (fst r) = root_ other /\
   V1.Print_in_order (fst r) = V1.Print_in_order other /\
   duplicate_elements_count_ (fst r) = duplicate_elements_count_ this /\
   total_elements_count_ (fst r) = total_elements_count_ this /\
   Permutation (snd r) (V1.Print_in_order this) /\
   (fst r = V2.BSTree_copy other <->
    duplicate_elements_count_ this = duplicate_elements_count_ other /\
    total_elements_count_ this = total_elements_count_ other)) /\
  (let r := move_assign this (Some other) in
   root_ (fst (fst r)) = root_ other /\
   duplicate_elements_count_ (fst (fst r)) = duplicate_elements_count_ this /\
   total_elements_count_ (fst (fst r)) = total_elements_count_ this /\
   snd (fst r) = Some (set_root other nullptr) /\
   Permutation (snd r) (V1.Print_in_order this)) /\
  copy_assign this None = (this, []) /\
  move_assign this None = (this, None, []).
Proof.
  destruct this as [rt dt tot], other as [ro do to].
  unfold copy_assign, move_assign, V2.BSTree_copy, V1.Print_in_order, set_root.
  cbn [fst snd root_ duplicate_elements_count_ total_elements_count_].
  rewrite Copy_id.
  split; [|split; [|split; reflexivity]].
  - do 4 (split; [reflexivity|]).
    split; [apply Clear_Permutation|].
    split.
    + intros [= H1 H2]. auto.
    + intros [-> ->]. reflexivity.
  - do 4 (split; [reflexivity|]). apply Clear_Permutation.
Qed.

(** ** The allocator without a pool *)



(** ** The free list of the pool *)

Lemma Pool_Allocate_pop (pool : Memory_Pool) (s : slot) (l : list slot) :
  chain (blocks_ pool) (free_list_ pool) (s :: l) ->
  exists pool' : Memory_Pool,
    Pool_Allocate pool = Ret (Some s, pool') /\
    blocks_ pool' = blocks_ pool /\
    block_count_ pool' = block_count_ pool /\
    block_size_ pool' = block_size_ pool /\
    chain (blocks_ pool') (free_list_ pool') l.
Proof.
  simpl. intros (Hf & q & Hq & Hc). unfold Pool_Allocate.
  rewrite Hf. simpl. rewrite Hf, Hq.
  eexists. split; [reflexivity|]. simpl. auto.
Qed.

(** [k] pops from a free list of at least [k] slots. *)
Lemma Pool_Allocate_n_chain (k : nat) (pool : Memory_Pool) (l : list slot) :
  chain (blocks_ pool) (free_list_ pool) l -> (k <= length l)%nat ->
  exists pool' : Memory_Pool,
    Pool_Allocate_n k pool = Ret (map Some (take k l), pool') /\
    blocks_ pool' = blocks_ pool /\
    chain (blocks_ pool') (free_list_ pool') (drop k l).
Proof.
  revert pool l. induction k as [|k IH]; intros pool l Hc Hk.
  - exists pool. auto.
  - destruct l as [|s l]; [simpl in Hk; lia|].
    destruct (Pool_Allocate_pop pool s l Hc) as (pool1 & Ha & Hb & _ & _ & Hc1).
    destruct (IH pool1 l Hc1 ltac:(simpl in Hk; lia)) as (pool' & Hn & Hb' & Hc').
    exists pool'. simpl. rewrite Ha. simpl. rewrite Hn. simpl.
    split; [reflexivity|]. split; [congruence|exact Hc'].
Qed.

(** While the free list is not exhausted, [Allocate()] works as a stack:
    [k] successive calls return the first [k] slots of the free list in
    their order, add no block, and leave the rest of the list. *)
Theorem Pool_Allocate_n_takes_prefix (k : nat) (pool : Memory_Pool) (l : list slot) :
  chain (blocks_ pool) (free_list_ pool) l -> (k <= length l)%nat ->
  exists pool' : Memory_Pool,
    Pool_Allocate_n k pool = Ret (map Some (take k l), pool') /\
    blocks_ pool' = blocks_ pool /\
    chain (blocks_ pool') (free_list_ pool') (drop k l).
Proof.
  exact (Pool_Allocate_n_chain k pool l).
Qed.

Lemma link_block_at (b last : nat) (free : ptr) (i : nat) :
  (i <= last)%nat ->
  link_block b last free (replicate (S last) None) !! i =
  Some (if Nat.eq_dec i last then free else Some (b, S i)).
Proof.
  intros Hi. unfold link_block.
  destruct (Nat.eq_dec i last) as [->|Hne].
  - apply list_lookup_insert_eq.
    rewrite link_loop_length, length_replicate. lia.
  - rewrite list_lookup_insert_ne by congruence.
    apply link_loop_lookup_lt; rewrite ?length_replicate; lia.
Qed.

Lemma chain_new_block (blocks : list (list ptr)) (last : nat) (free : ptr) (n i : nat) :
  free = None -> (i + n = S last)%nat ->
  chain (blocks ++ [link_block (length blocks) last free (replicate (S last) None)])
        (match n with O => None | S _ => Some (length blocks, i) end)
        (block_slots (length blocks) i n).
Proof.
  intros Hfree. revert i. induction n as [|n IH]; intros i Hi.
  - reflexivity.
  - simpl. split; [reflexivity|].
    rewrite next_of_app_new, link_block_at by lia.
    eexists. split; [reflexivity|].
    destruct (Nat.eq_dec i last) as [->|Hne].
    + assert (n = O) by lia. subst n. simpl. exact Hfree.
    + specialize (IH (S i) ltac:(lia)).
      destruct n as [|n]; [lia|]. exact IH.
Qed.

Lemma Pool_Allocate_n_snoc (k : nat) (pool : Memory_Pool) :
  Pool_Allocate_n (k + 1) pool =
  let* r := Pool_Allocate_n k pool in
  let* r' := Pool_Allocate (snd r) in
  Ret (fst r ++ [fst r'], snd r').
Proof.
  revert pool. induction k as [|k IH]; intros pool; simpl.
  - destruct (Pool_Allocate pool) as [[p pool']| | |]; reflexivity.
  - destruct (Pool_Allocate pool) as [[p pool']| | |]; simpl; try reflexivity.
    rewrite IH.
    destruct (Pool_Allocate_n k pool') as [[ps pool'']| | |]; simpl; try reflexivity.
    destruct (Pool_Allocate pool'') as [[p' pool3]| | |]; reflexivity.
Qed.

(** The state of a pool built with block count [c] after [b * c + j]
    allocations and no deallocation, for [j <= c]. *)
Lemma fresh_pool_state (sizeof_T : Z) (c b j : nat) :
  (1 <= c)%nat -> (j <= c)%nat ->
  exists (ps : list ptr) (pool : Memory_Pool),
    Pool_Allocate_n (b * c + j) (mkPool None [] sizeof_T c) = Ret (ps, pool) /\
    block_count_ pool = c /\
    match j with
    | O => free_list_ pool = None /\ length (blocks_ pool) = b
    | S _ => length (blocks_ pool) = S b /\
             chain (blocks_ pool) (free_list_ pool) (block_slots b j (c - j))
    end /\
    ((j < c)%nat ->
     exists pool' : Memory_Pool,
       Pool_Allocate pool = Ret (Some (b, j), pool') /\
       length (blocks_ pool') = S b).
Proof.
  intros Hc.
  assert (Hnext : forall (pool : Memory_Pool) (b j : nat),
             block_count_ pool = c ->
             match j with
             | O => free_list_ pool = None /\ length (blocks_ pool) = b
             | S _ => length (blocks_ pool) = S b /\
                      chain (blocks_ pool) (free_list_ pool) (block_slots b j (c - j))
             end ->
             (j < c)%nat ->
             exists pool' : Memory_Pool,
               Pool_Allocate pool = Ret (Some (b, j), pool') /\
               block_count_ pool' = c /\
               length (blocks_ pool') = S b /\
               chain (blocks_ pool') (free_list_ pool') (block_slots b (S j) (c - S j))).
  { intros pool b0 j0 Hcount Hst Hj.
    destruct j0 as [|j0].
    - destruct Hst as [Hfree Hlen].
      destruct c as [|last]; [lia|].
      pose proof (chain_new_block (blocks_ pool) last (free_list_ pool) (S last) 0
                    Hfree ltac:(lia)) as Hch.
      rewrite Hlen in Hch.
      unfold Pool_Allocate, Allocate_Block. rewrite Hfree, Hcount. simpl obind.
      cbn [free_list_ blocks_ block_count_ block_size_].
      rewrite Hlen.
      destruct Hch as (_ & q & Hq & Hch). rewrite Hfree in Hq, Hch.
      match goal with
      | |- context [match ?X with Some _ => _ | None => _ end] =>
          replace X with (Some q) by (symmetry; exact Hq)
      end.
      eexists. split; [reflexivity|].
      cbn [free_list_ blocks_ block_count_ block_size_].
      split; [reflexivity|]. split; [rewrite length_app; simpl; lia|].
      replace (S last - 1)%nat with last by lia. exact Hch.
    - destruct Hst as [Hlen Hch].
      replace (c - S j0)%nat with (S (c - S (S j0))) in Hch by lia.
      destruct (Pool_Allocate_pop pool (b0, S j0) _ Hch)
        as (pool' & Ha & Hb & Hcnt & _ & Hch').
      exists pool'. split; [exact Ha|]. split; [congruence|].
      split; [congruence|exact Hch']. }
  revert j. induction b as [|b IHb]; intros j.
  - induction j as [|j IHj]; intros Hj.
    + exists [], (mkPool None [] sizeof_T c). simpl.
      split; [reflexivity|]. split; [reflexivity|]. split; [auto|].
      intros Hlt.
      destruct (Hnext (mkPool None [] sizeof_T c) O O eq_refl (conj eq_refl eq_refl) Hlt)
        as (pool1 & Ha1 & _ & Hl1 & _).
      eauto.
    + destruct (IHj ltac:(lia)) as (ps & pool & Hn & Hcnt & Hst & _).
      destruct (Hnext pool O j Hcnt Hst ltac:(lia)) as (pool1 & Ha1 & Hc1 & Hl1 & Hch1).
      exists (ps ++ [Some (O, j)]), pool1.
      split.
      { replace (0 * c + S j)%nat with (0 * c + j + 1)%nat by lia.
        rewrite Pool_Allocate_n_snoc, Hn. simpl. rewrite Ha1. reflexivity. }
      split; [exact Hc1|]. split; [auto|].
      intros Hlt.
      destruct (Hnext pool1 O (S j) Hc1 (conj Hl1 Hch1) Hlt) as (pool2 & Ha2 & _ & Hl2 & _).
      eauto.
  - assert (Hfull : exists (ps : list ptr) (pool : Memory_Pool),
               Pool_Allocate_n (S b * c + 0) (mkPool None [] sizeof_T c) = Ret (ps, pool) /\
               block_count_ pool = c /\
               free_list_ pool = None /\ length (blocks_ pool) = S b).
    { destruct (IHb c ltac:(lia)) as (ps & pool & Hn & Hcnt & Hst & _).
      exists ps, pool.
      replace (S b * c + 0)%nat with (b * c + c)%nat by lia.
      split; [exact Hn|]. split; [exact Hcnt|].
      destruct c as [|last]; [lia|].
      destruct Hst as [Hlen Hch]. rewrite Nat.sub_diag in Hch. simpl in Hch. auto. }
    clear IHb.
    induction j as [|j IHj]; intros Hj.
    + destruct Hfull as (ps & pool & Hn & Hcnt & Hfree & Hlen).
      exists ps, pool. split; [exact Hn|]. split; [exact Hcnt|]. split; [auto|].
      intros Hlt.
      destruct (Hnext pool (S b) O Hcnt (conj Hfree Hlen) Hlt) as (pool1 & Ha1 & _ & Hl1 & _).
      eauto.
    + destruct (IHj ltac:(lia)) as (ps & pool & Hn & Hcnt & Hst & _).
      destruct (Hnext pool (S b) j Hcnt Hst ltac:(lia)) as (pool1 & Ha1 & Hc1 & Hl1 & Hch1).
      exists (ps ++ [Some (S b, j)]), pool1.
      split.
      { replace (S b * c + S j)%nat with (S b * c + j + 1)%nat by lia.
        rewrite Pool_Allocate_n_snoc, Hn. simpl. rewrite Ha1. reflexivity. }
      split; [exact Hc1|]. split; [auto|].
      intros Hlt.
      destruct (Hnext pool1 (S b) (S j) Hc1 (conj Hl1 Hch1) Hlt) as (pool2 & Ha2 & _ & Hl2 & _).
      eauto.
Qed.

(** Allocation order of a new pool.  With block count [c] and no
    deallocation, allocation number [b * c + j] (counting from 0, [j < c])
    returns slot [j] of block [b]: the pool grows by one block exactly at
    every [c]-th allocation, and no slot is handed out twice. *)
Theorem fresh_pool_allocation_order (sizeof_T : Z) (c b j : nat) :
  (j < c)%nat ->
  exists (ps : list ptr) (pool pool' : Memory_Pool),
    Pool_Allocate_n (b * c + j) (mkPool None [] sizeof_T c) = Ret (ps, pool) /\
    Pool_Allocate pool = Ret (Some (b, j), pool') /\
    length (blocks_ pool) = (match j with O => b | S _ => S b end) /\
    length (blocks_ pool') = S b.
Proof.
  intros Hj.
  destruct (fresh_pool_state sizeof_T c b j ltac:(lia) ltac:(lia))
    as (ps & pool & Hn & _ & Hst & Hnext).
  destruct (Hnext Hj) as (pool' & Ha & Hl).
  exists ps, pool, pool'. split; [exact Hn|]. split; [exact Ha|].
  split; [|exact Hl].
  destruct j; tauto.
Qed.

Lemma fresh_pool_allocation_order_witness :
  (1 < 2)%nat /\
  exists (ps : list ptr) (pool pool' : Memory_Pool),
    Pool_Allocate_n (3 * 2 + 1) (mkPool None [] 8 2) = Ret (ps, pool) /\
    Pool_Allocate pool = Ret (Some (3, 1)%nat, pool').
Proof.
  assert (H : (1 < 2)%nat) by lia.
  split; [exact H|].
  destruct (fresh_pool_allocation_order 8 2 3 1 H) as (ps & pool & pool' & Hn & Ha & _).
  exists ps, pool, pool'. split; [exact Hn|exact Ha].
Defined.

Lemma Pool_Allocate_n_takes_prefix_witness :
  exists pool : Memory_Pool,
    Pool_Allocate (mkPool None [] 8 4) = Ret (Some (0, 0)%nat, pool) /\
    chain (blocks_ pool) (free_list_ pool) (block_slots 0 1 3) /\
    exists pool' : Memory_Pool,
      Pool_Allocate_n 2 pool = Ret (map Some (take 2 (block_slots 0 1 3)), pool').
Proof.
  eexists. split; [vm_compute; reflexivity|].
  assert (Hc : chain
                 (blocks_ (mkPool (Some (0, 1)%nat)
                    [[Some (0, 1)%nat; Some (0, 2)%nat; Some (0, 3)%nat; None]] 8 4))
                 (free_list_ (mkPool (Some (0, 1)%nat)
                    [[Some (0, 1)%nat; Some (0, 2)%nat; Some (0, 3)%nat; None]] 8 4))
                 (block_slots 0 1 3)).
  { simpl. repeat (split; [reflexivity|]; eexists; split; [reflexivity|]). reflexivity. }
  split; [exact Hc|].
  assert (Hk : (2 <= length (block_slots 0 1 3))%nat) by (simpl; lia).
  destruct (Pool_Allocate_n_takes_prefix 2 _ _ Hc Hk) as (pool' & Hn & _).
  exists pool'. exact Hn.
Defined.

(** The pool does not detect a double free.  After the same slot is given
    back twice in a row, its [next] field points to the slot itself: every
    later [Allocate()] returns this one slot and leaves the pool as it is,
    so the slot is handed out again and again. *)
Theorem double_free_makes_cycle (pool : Memory_Pool) (s : slot) :
  is_slot pool s ->
  exists pool1 pool2 : Memory_Pool,
    Pool_Deallocate pool (Some s) = Ret pool1 /\
    Pool_Deallocate pool1 (Some s) = Ret pool2 /\
    next_of (blocks_ pool2) s = Some (Some s) /\
    forall k : nat, Pool_Allocate_n k pool2 = Ret (repeat (Some s) k, pool2).
Proof.
  intros Hs.
  destruct (Pool_Deallocate_slot pool s Hs) as (pool1 & Hd1 & Hf1 & Hn1 & _).
  assert (Hs1 : is_slot pool1 s) by (unfold is_slot; rewrite Hn1; eauto).
  destruct (Pool_Deallocate_slot pool1 s Hs1) as (pool2 & Hd2 & Hf2 & Hn2 & _).
  rewrite Hf1 in Hn2.
  exists pool1, pool2. split; [exact Hd1|]. split; [exact Hd2|]. split; [exact Hn2|].
  assert (Ha : Pool_Allocate pool2 = Ret (Some s, pool2)).
  { unfold Pool_Allocate. rewrite Hf2. simpl. rewrite Hf2, Hn2.
    destruct pool2 as [f bl sz cnt]. simpl in *. subst f. reflexivity. }
  induction k as [|k IH]; simpl; [reflexivity|].
  rewrite Ha. simpl. rewrite IH. reflexivity.
Qed.

Lemma double_free_makes_cycle_witness :
  exists pool : Memory_Pool,
    Pool_Allocate (mkPool None [] 8 4) = Ret (Some (0, 0)%nat, pool) /\
    is_slot pool (0, 0)%nat /\
    exists pool1 pool2 : Memory_Pool,
      Pool_Deallocate pool (Some (0, 0)%nat) = Ret pool1 /\
      Pool_Deallocate pool1 (Some (0, 0)%nat) = Ret pool2 /\
      Pool_Allocate_n 3 pool2 = Ret (repeat (Some (0, 0)%nat) 3, pool2).
Proof.
  eexists. split; [vm_compute; reflexivity|].
  match goal with |- is_slot ?P ?S /\ _ => assert (Hs : is_slot P S) end.
  { unfold is_slot. simpl. eauto. }
  split; [exact Hs|].
  destruct (double_free_makes_cycle _ _ Hs) as (pool1 & pool2 & H1 & H2 & _ & Hk).
  exists pool1, pool2. split; [exact H1|]. split; [exact H2|]. exact (Hk 3%nat).
Defined.



(** ** Version 3: the nodes of the tree and the slots of the pool *)

Lemma Allocate_one (a : BSTree_Allocator) (st : pool_store)
    (pool pool' : Memory_Pool) (p : ptr) :
  st !! pool_ a = Some pool -> Pool_Allocate pool = Ret (p, pool') ->
  Allocate a 1 st = (Ret p, <[pool_ a := pool']> st).
Proof.
  intros Hst Ha. unfold Allocate. simpl. now rewrite Hst, Ha.
Qed.

Lemma Deallocate_one (a : BSTree_Allocator) (st : pool_store)
    (pool pool' : Memory_Pool) (s : slot) :
  st !! pool_ a = Some pool -> Pool_Deallocate pool (Some s) = Ret pool' ->
  Deallocate a (Some s) 1 st = (Ret tt, <[pool_ a := pool']> st).
Proof.
  intros Hst Hd. unfold Deallocate. now rewrite Z.eqb_refl, Hst, Hd.
Qed.

Lemma store_lookup_insert (st : pool_store) (i : nat) (pool pool' : Memory_Pool) :
  st !! i = Some pool -> <[i := pool']> st !! i = Some pool'.
Proof.
  unfold pool_store in *. intros H. apply list_lookup_insert_eq.
  now apply lookup_lt_Some in H.
Qed.

Lemma chain_set_next (blocks : list (list ptr)) (s : slot) (x q : ptr) (l : list slot) :
  chain blocks q l -> s ∉ l -> chain (set_next blocks s x) q l.
Proof.
  revert q. induction l as [|s' l IH]; intros q; simpl; [auto|].
  intros (Hq & q' & Hn & Hc) Hs.
  rewrite not_elem_of_cons in Hs. destruct Hs as [Hne Hs].
  split; [exact Hq|]. exists q'. split; [|now apply IH].
  rewrite next_of_set_next_ne by congruence. exact Hn.
Qed.

Lemma Pool_Deallocate_push (pool : Memory_Pool) (s : slot) (l : list slot) :
  is_slot pool s -> chain (blocks_ pool) (free_list_ pool) l -> s ∉ l ->
  exists pool' : Memory_Pool,
    Pool_Deallocate pool (Some s) = Ret pool' /\
    chain (blocks_ pool') (free_list_ pool') (s :: l) /\
    length (blocks_ pool') = length (blocks_ pool) /\
    block_count_ pool' = block_count_ pool /\
    (forall x : slot, is_slot pool x -> is_slot pool' x).
Proof.
  intros Hs Hc Hn. unfold Pool_Deallocate.
  destruct Hs as [q0 Hq0]. rewrite Hq0.
  eexists. split; [reflexivity|]. cbn [blocks_ free_list_ block_count_].
  split.
  - simpl. split; [reflexivity|]. exists (free_list_ pool).
    split; [apply next_of_set_next_eq; eauto|].
    now apply chain_set_next.
  - split; [unfold set_next; now rewrite length_alter|].
    split; [reflexivity|].
    intros x Hx. unfold is_slot in *. cbn [blocks_].
    now apply is_Some_next_of_set_next.
Qed.

Lemma Clear_chain (a : BSTree_Allocator) (node : V3.PNodePtr) :
  forall (st : pool_store) (pool : Memory_Pool) (free : list slot),
    st !! pool_ a = Some pool ->
    chain (blocks_ pool) (free_list_ pool) free ->
    NoDup (V3.addrs node ++ free) ->
    Forall (is_slot pool) (V3.addrs node) ->
    exists pool' : Memory_Pool,
      V3.Clear a node st = (Ret tt, <[pool_ a := pool']> st) /\
      chain (blocks_ pool') (free_list_ pool') (reverse (V3.addrs node) ++ free) /\
      length (blocks_ pool') = length (blocks_ pool) /\
      block_count_ pool' = block_count_ pool /\
      (forall x : slot, is_slot pool x -> is_slot pool' x).
Proof.
  induction node as [|s d l IHl r IHr c]; intros st pool free Hst Hc Hnd Hsl.
  - exists pool. simpl. unfold pool_store in *.
    rewrite (list_insert_id _ _ _ Hst). auto.
  - cbn [V3.addrs] in Hnd, Hsl.
    rewrite !Forall_app, Forall_singleton in Hsl. destruct Hsl as (Hsl_l & Hsl_r & Hsl_s).
    rewrite <- !app_assoc in Hnd. rewrite !NoDup_app in Hnd.
    destruct Hnd as (Hnl & Hdl & Hnr & Hdr & Hns & Hds & Hnf).
    destruct (IHl st pool free Hst Hc) as (pool1 & Hcl1 & Hc1 & Hlen1 & Hcnt1 & Hmono1).
    { rewrite NoDup_app. split; [exact Hnl|]. split; [|exact Hnf].
      intros x Hx. specialize (Hdl x Hx). rewrite !elem_of_app in Hdl. tauto. }
    { exact Hsl_l. }
    pose proof (store_lookup_insert st (pool_ a) pool pool1 Hst) as Hst1.
    destruct (IHr (<[pool_ a := pool1]> st) pool1 (reverse (V3.addrs l) ++ free) Hst1 Hc1)
      as (pool2 & Hcl2 & Hc2 & Hlen2 & Hcnt2 & Hmono2).
    { rewrite NoDup_app. split; [exact Hnr|]. split.
      - intros x Hx. rewrite elem_of_app, elem_of_reverse. intros [Hxl|Hxf].
        + specialize (Hdl x Hxl). rewrite !elem_of_app in Hdl. tauto.
        + specialize (Hdr x Hx). rewrite elem_of_app in Hdr. tauto.
      - rewrite NoDup_app. split; [now rewrite reverse_Permutation|]. split; [|exact Hnf].
        intros x Hx. rewrite elem_of_reverse in Hx.
        specialize (Hdl x Hx). rewrite !elem_of_app in Hdl. tauto. }
    { eapply Forall_impl; [exact Hsl_r|exact Hmono1]. }
    pose proof (store_lookup_insert _ (pool_ a) pool1 pool2 Hst1) as Hst2.
    destruct (Pool_Deallocate_push pool2 s
                (reverse (V3.addrs r) ++ reverse (V3.addrs l) ++ free))
      as (pool3 & Hd3 & Hc3 & Hlen3 & Hcnt3 & Hmono3).
    { auto. }
    { exact Hc2. }
    { rewrite !elem_of_app, !elem_of_reverse. intros [Hx|[Hx|Hx]].
      - specialize (Hdr s Hx). rewrite !elem_of_app in Hdr.
        apply Hdr. left. now apply list_elem_of_singleton.
      - specialize (Hdl s Hx). rewrite !elem_of_app in Hdl.
        apply Hdl. right. left. now apply list_elem_of_singleton.
      - apply (Hds s); [now apply list_elem_of_singleton|exact Hx]. }
    exists pool3. cbn [V3.Clear]. rewrite Hcl1, Hcl2.
    rewrite (Deallocate_one a _ pool2 pool3 s Hst2 Hd3).
    unfold pool_store in *. rewrite !list_insert_insert_eq.
    split; [reflexivity|].
    split.
    { cbn [V3.addrs]. rewrite !reverse_app, reverse_singleton.
      rewrite <- !app_assoc. exact Hc3. }
    split; [congruence|]. split; [congruence|]. auto.
Qed.

Lemma insert_at_erase (s : slot) (node : V3.PNodePtr) (value : T) :
  V3.erase (V3.insert_at s node value) = V1.Insert_node (V3.erase node) value.
Proof.
  induction node as [|s' d l IHl r IHr c]; simpl; [reflexivity|].
  destruct (value <? d); simpl; [now rewrite IHl|].
  destruct (value >? d); simpl; [now rewrite IHr|reflexivity].
Qed.

Lemma Insert_node_present (a : BSTree_Allocator) (s : slot) (node : V3.PNodePtr)
    (value : T) (st : pool_store) :
  Search_node (V3.erase node) value = true ->
  V3.Insert_node a node value st = (Ret (V3.insert_at s node value), st) /\
  V3.addrs (V3.insert_at s node value) = V3.addrs node.
Proof.
  induction node as [|s' d l IHl r IHr c]; simpl; [discriminate|].
  rewrite Z.gtb_ltb.
  destruct (Z.eqb_spec d value) as [->|Hne].
  - rewrite !Z.ltb_irrefl. auto.
  - destruct (Z.ltb_spec value d) as [Hlt|Hge].
    + intros H. destruct (IHl H) as [-> He]. simpl. now rewrite He.
    + destruct (Z.ltb_spec d value) as [Hgt|Hle]; [|lia].
      intros H. destruct (IHr H) as [-> He]. simpl. now rewrite He.
Qed.

Lemma Insert_node_absent (a : BSTree_Allocator) (s : slot) (node : V3.PNodePtr)
    (value : T) (st st' : pool_store) :
  Search_node (V3.erase node) value = false ->
  Allocate a 1 st = (Ret (Some s), st') ->
  V3.Insert_node a node value st = (Ret (V3.insert_at s node value), st') /\
  V3.addrs (V3.insert_at s node value) ≡ₚ s :: V3.addrs node.
Proof.
  intros Hs Ha. induction node as [|s' d l IHl r IHr c]; simpl in *.
  - rewrite Ha. auto.
  - rewrite Z.gtb_ltb.
    destruct (Z.eqb_spec d value) as [Heq|Hne]; [discriminate|].
    destruct (Z.ltb_spec value d) as [Hlt|Hge].
    + destruct (IHl Hs) as [-> He]. simpl. rewrite He. auto.
    + destruct (Z.ltb_spec d value) as [Hgt|Hle]; [|lia].
      destruct (IHr Hs) as [-> He]. simpl. rewrite He.
      split; [reflexivity|].
      rewrite Permutation_middle. reflexivity.
Qed.

Lemma block_slots_fresh (pool : Memory_Pool) (i n : nat) (x : slot) :
  x ∈ block_slots (length (blocks_ pool)) i n -> ~ is_slot pool x.
Proof.
  unfold block_slots. intros Hx Hs.
  apply list_elem_of_fmap in Hx. destruct Hx as (j & -> & _).
  apply next_of_Some_lt in Hs. simpl in Hs. lia.
Qed.

Lemma block_slots_NoDup (b i n : nat) : NoDup (block_slots b i n).
Proof.
  unfold block_slots. apply NoDup_fmap_2; [|apply NoDup_seq].
  intros x y [= ->]. reflexivity.
Qed.

(** One allocation seen on the free list: the head of the list, or, when
    the list is empty, the first slot of a new block whose other slots become
    the list. *)
Lemma Pool_Allocate_chain (pool : Memory_Pool) (free : list slot) :
  block_count_ pool <> O ->
  chain (blocks_ pool) (free_list_ pool) free ->
  exists (s : slot) (pool' : Memory_Pool) (free' : list slot),
    Pool_Allocate pool = Ret (Some s, pool') /\
    chain (blocks_ pool') (free_list_ pool') free' /\
    block_count_ pool' = block_count_ pool /\
    (forall x : slot, is_slot pool x -> is_slot pool' x) /\
    match free with
    | s0 :: rest => s = s0 /\ free' = rest /\ blocks_ pool' = blocks_ pool
    | [] =>
        s :: free' = block_slots (length (blocks_ pool)) 0 (block_count_ pool) /\
        length (blocks_ pool') = S (length (blocks_ pool)) /\
        Forall (is_slot pool') (s :: free')
    end.
Proof.
  intros Hcnt Hc. destruct free as [|s0 rest].
  - simpl in Hc.
    destruct (block_count_ pool) as [|last] eqn:Ecnt; [contradiction|].
    pose proof (chain_new_block (blocks_ pool) last None (S last) 0 eq_refl ltac:(lia))
      as Hch.
    set (blk := link_block (length (blocks_ pool)) last None (replicate (S last) None))
      in Hch.
    assert (Hlenblk : length blk = S last) by apply link_block_length.
    destruct Hch as (_ & q & Hq & Hch).
    exists (length (blocks_ pool), O),
           (mkPool q (blocks_ pool ++ [blk]) (block_size_ pool) (S last)),
           (block_slots (length (blocks_ pool)) 1 last).
    split.
    { unfold Pool_Allocate, Allocate_Block. rewrite Hc, Ecnt.
      cbn [obind free_list_ blocks_ block_count_ block_size_].
      match goal with
      | |- context [match ?X with Some _ => _ | None => _ end] =>
          replace X with (Some q) by (symmetry; exact Hq)
      end.
      reflexivity. }
    cbn [free_list_ blocks_ block_count_ block_size_].
    split; [exact Hch|]. split; [reflexivity|].
    split; [intros x Hx; now apply is_Some_next_of_app|].
    split; [reflexivity|]. split; [rewrite length_app; simpl; lia|].
    change ((length (blocks_ pool), O) :: block_slots (length (blocks_ pool)) 1 last)
      with (block_slots (length (blocks_ pool)) 0 (S last)).
    apply Forall_forall. intros x Hx. unfold block_slots in Hx.
    apply list_elem_of_fmap in Hx. destruct Hx as (j & -> & Hj).
    apply elem_of_seq in Hj. unfold is_slot. cbn [blocks_].
    rewrite next_of_app_new. apply lookup_lt_is_Some. lia.
  - destruct (Pool_Allocate_pop pool s0 rest Hc) as (pool' & Ha & Hb & Hcn & _ & Hc').
    exists s0, pool', rest. split; [exact Ha|]. split; [exact Hc'|].
    split; [exact Hcn|]. split; [|auto].
    intros x Hx. unfold is_slot in *. now rewrite Hb.
Qed.

Lemma Insert_node_in_pool
    (a : BSTree_Allocator) (st : pool_store) (pool : Memory_Pool)
    (node : V3.PNodePtr) (value : T) (free : list slot) :
  st !! pool_ a = Some pool -> V3.tree_in_pool pool node free ->
  exists (node' : V3.PNodePtr) (pool' : Memory_Pool) (free' : list slot),
    V3.Insert_node a node value st = (Ret node', <[pool_ a := pool']> st) /\
    V3.erase node' = V1.Insert_node (V3.erase node) value /\
    V3.tree_in_pool pool' node' free' /\
    if Search_node (V3.erase node) value
    then pool' = pool /\ free' = free /\ V3.addrs node' = V3.addrs node
    else exists s : slot,
           V3.addrs node' ≡ₚ s :: V3.addrs node /\
           match free with
           | s0 :: rest => s = s0 /\ free' = rest /\ blocks_ pool' = blocks_ pool
           | [] => s = (length (blocks_ pool), O) /\
                   length (blocks_ pool') = S (length (blocks_ pool))
           end.
Proof.
  intros Hst (Hcnt & Hc & Hnd & Hsl).
  destruct (Search_node (V3.erase node) value) eqn:Hsearch.
  - destruct (Insert_node_present a (O, O) node value st Hsearch) as [Hi He].
    exists (V3.insert_at (O, O) node value), pool, free.
    unfold pool_store in *. rewrite (list_insert_id _ _ _ Hst).
    split; [exact Hi|]. split; [apply insert_at_erase|].
    split; [|auto].
    unfold V3.tree_in_pool. rewrite He. auto.
  - destruct (Pool_Allocate_chain pool free Hcnt Hc)
      as (s & pool' & free' & Ha & Hc' & Hcnt' & Hmono & Hcase).
    pose proof (Allocate_one a st pool pool' (Some s) Hst Ha) as Hal.
    destruct (Insert_node_absent a s node value st _ Hsearch Hal) as [Hi He].
    exists (V3.insert_at s node value), pool', free'.
    split; [exact Hi|]. split; [apply insert_at_erase|].
    split.
    + unfold V3.tree_in_pool. rewrite He.
      split; [congruence|]. split; [exact Hc'|].
      destruct free as [|s0 rest].
      * destruct Hcase as (Hnew & _ & Hslnew). rewrite app_nil_r in Hnd, Hsl.
        split.
        -- rewrite (Permutation_middle (V3.addrs node) free' s).
           rewrite NoDup_app. split; [exact Hnd|]. split.
           ++ intros x Hx Hin. rewrite Hnew in Hin.
              apply (block_slots_fresh pool _ _ x Hin).
              rewrite Forall_forall in Hsl. now apply Hsl.
           ++ rewrite Hnew. apply block_slots_NoDup.
        -- rewrite (Permutation_middle (V3.addrs node) free' s).
           rewrite Forall_app. split; [|exact Hslnew].
           eapply Forall_impl; [exact Hsl|exact Hmono].
      * destruct Hcase as (-> & -> & _).
        split.
        -- rewrite (Permutation_middle (V3.addrs node) rest s0). exact Hnd.
        -- rewrite (Permutation_middle (V3.addrs node) rest s0).
           eapply Forall_impl; [exact Hsl|exact Hmono].
    + exists s. split; [exact He|].
      destruct free as [|s0 rest]; [|exact Hcase].
      destruct Hcase as (Hnew & Hlen & _).
      split; [|exact Hlen].
      destruct (block_count_ pool); [contradiction|].
      now injection Hnew.
Qed.

(** [Insert] of the allocator version builds the tree version 1 builds.
    For a value already in the tree it takes no slot and leaves the pool as
    it is; for a new value it takes exactly one slot from the pool of its
    handle for the new node: the head of the free list, or the first slot of
    a block added when the list is empty.  The nodes of the tree stay in
    pairwise distinct slots, none of them on the free list. *)
Theorem Insert_takes_one_slot
    (a : BSTree_Allocator) (st : pool_store) (pool : Memory_Pool)
    (node : V3.PNodePtr) (value : T) (free : list slot) :
  st !! pool_ a = Some pool -> V3.tree_in_pool pool node free ->
  exists (node' : V3.PNodePtr) (pool' : Memory_Pool) (free' : list slot),
    V3.Insert_node a node value st = (Ret node', <[pool_ a := pool']> st) /\
    V3.erase node' = V1.Insert_node (V3.erase node) value /\
    V3.tree_in_pool pool' node' free' /\
    if Search_node (V3.erase node) value
    then pool' = pool /\ free' = free /\ V3.addrs node' = V3.addrs node
    else exists s : slot,
           V3.addrs node' ≡ₚ s :: V3.addrs node /\
           match free with
           | s0 :: rest => s = s0 /\ free' = rest /\ blocks_ pool' = blocks_ pool
           | [] => s = (length (blocks_ pool), O) /\
                   length (blocks_ pool') = S (length (blocks_ pool))
           end.
Proof.
  exact (Insert_node_in_pool a st pool node value free).
Qed.


Lemma Clear_in_pool
    (a : BSTree_Allocator) (st : pool_store) (pool : Memory_Pool)
    (node : V3.PNodePtr) (free : list slot) :
  st !! pool_ a = Some pool -> V3.tree_in_pool pool node free ->
  exists pool' : Memory_Pool,
    V3.Clear a node st = (Ret tt, <[pool_ a := pool']> st) /\
    V3.tree_in_pool pool' V3.pnull (reverse (V3.addrs node) ++ free) /\
    length (blocks_ pool') = length (blocks_ pool).
Proof.
  intros Hst (Hcnt & Hc & Hnd & Hsl).
  destruct (Clear_chain a node st pool free Hst Hc Hnd)
    as (pool' & Hcl & Hc' & Hlen & Hcnt' & Hmono).
  { rewrite Forall_app in Hsl. tauto. }
  exists pool'. split; [exact Hcl|]. split; [|exact Hlen].
  unfold V3.tree_in_pool. cbn [V3.addrs app].
  split; [congruence|]. split; [exact Hc'|].
  split.
  - rewrite reverse_Permutation. exact Hnd.
  - rewrite reverse_Permutation. eapply Forall_impl; [exact Hsl|exact Hmono].
Qed.

(** [Clear] of the allocator version gives every slot of the tree back to
    the pool of its handle, exactly once: afterwards the free list is the
    slots of the tree, last deleted first, followed by the old free list,
    and the pool has the same blocks as before. *)
Theorem Clear_returns_every_slot
    (a : BSTree_Allocator) (st : pool_store) (pool : Memory_Pool)
    (node : V3.PNodePtr) (free : list slot) :
  st !! pool_ a = Some pool -> V3.tree_in_pool pool node free ->
  exists pool' : Memory_Pool,
    V3.Clear a node st = (Ret tt, <[pool_ a := pool']> st) /\
    V3.tree_in_pool pool' V3.pnull (reverse (V3.addrs node) ++ free) /\
    length (blocks_ pool') = length (blocks_ pool).
Proof.
  exact (Clear_in_pool a st pool node free).
Qed.




Example sample_is_built_by_Insert :
  V3_Insert_all (mkAlloc 0) [5; 3; 8] V3.pnull [mkPool None [] 8 4] =
  (Ret sample_tree, [sample_pool]).
Proof. vm_compute. reflexivity. Qed.

Lemma sample_in_pool : V3.tree_in_pool sample_pool sample_tree [(0, 3)%nat].
Proof.
  unfold V3.tree_in_pool, sample_pool, sample_tree. simpl.
  split; [discriminate|].
  split; [split; [reflexivity|]; exists None; split; reflexivity|].
  split.
  - apply NoDup_ListNoDup. repeat constructor; simpl; intuition congruence.
  - repeat constructor; unfold is_slot; simpl; eauto.
Defined.

Lemma Insert_takes_one_slot_witness :
  [sample_pool] !! pool_ (mkAlloc 0) = Some sample_pool /\
  V3.tree_in_pool sample_pool sample_tree [(0, 3)%nat] /\
  exists (node' : V3.PNodePtr) (pool' : Memory_Pool) (free' : list slot),
    V3.Insert_node (mkAlloc 0) sample_tree 4 [sample_pool] =
      (Ret node', <[pool_ (mkAlloc 0) := pool']> [sample_pool]) /\
    V3.erase node' = V1.Insert_node (V3.erase sample_tree) 4 /\
    V3.tree_in_pool pool' node' free'.
Proof.
  assert (Hst : [sample_pool] !! pool_ (mkAlloc 0) = Some sample_pool) by reflexivity.
  split; [exact Hst|]. split; [exact sample_in_pool|].
  destruct (Insert_takes_one_slot (mkAlloc 0) [sample_pool] sample_pool sample_tree 4
              [(0, 3)%nat] Hst sample_in_pool)
    as (node' & pool' & free' & Hi & He & Hin & _).
  exists node', pool', free'. auto.
Defined.

Lemma Clear_returns_every_slot_witness :
  [sample_pool] !! pool_ (mkAlloc 0) = Some sample_pool /\
  V3.tree_in_pool sample_pool sample_tree [(0, 3)%nat] /\
  exists pool' : Memory_Pool,
    V3.Clear (mkAlloc 0) sample_tree [sample_pool] =
      (Ret tt, <[pool_ (mkAlloc 0) := pool']> [sample_pool]) /\
    V3.tree_in_pool pool' V3.pnull
      (reverse (V3.addrs sample_tree) ++ [(0, 3)%nat]) /\
    length (blocks_ pool') = length (blocks_ sample_pool).
Proof.
  assert (Hst : [sample_pool] !! pool_ (mkAlloc 0) = Some sample_pool) by reflexivity.
  split; [exact Hst|]. split; [exact sample_in_pool|].
  exact (Clear_returns_every_slot (mkAlloc 0) [sample_pool] sample_pool sample_tree
           [(0, 3)%nat] Hst sample_in_pool).
Defined.


(** ** Invariants of a tree under any sequence of calls *)

Lemma step_keeps_ordering (t : BSTree) (o : V1.op) :
  bst (root_ t) ->
  bst (root_ (V1.step t o)) /\
  (forall x : T, In x (Inorder (root_ (V1.step t o))) ->
                 In x (Inorder (root_ t)) \/ In x (inserted_values [o])).
Proof.
  intros Hb. destruct o as [v|v|v]; simpl.
  - split; [now apply Insert_node_bst|].
    intros x Hx. apply Insert_node_In in Hx.
    destruct Hx as [->|Hx]; [right; now left|now left].
  - auto.
  - rewrite Remove_root.
    destruct (Remove_node_bst (root_ t) v (total_elements_count_ t) Hb) as [Hb' Hin].
    split; [exact Hb'|]. intros x Hx. left. now apply Hin.
Qed.

Lemma inserted_values_cons (o : V1.op) (ops : list V1.op) (x : T) :
  In x (inserted_values (o :: ops)) <->
  In x (inserted_values [o]) \/ In x (inserted_values ops).
Proof.
  destruct o; simpl; tauto.
Qed.

(** Whatever sequence of [Insert], [Search] and [Remove] calls is made on an
    empty tree, the tree keeps the search-tree ordering, its traversal is
    strictly ascending, and it holds no value that was not inserted. *)
Theorem run_keeps_ordering (ops : list V1.op) :
  bst (root_ (V1.run ops BSTree_new)) /\
  StronglySorted Z.lt (V1.Print_in_order (V1.run ops BSTree_new)) /\
  (forall x : T, In x (V1.Print_in_order (V1.run ops BSTree_new)) ->
                 In x (inserted_values ops)).
Proof.
  assert (H : forall (ops : list V1.op) (t : BSTree),
             bst (root_ t) ->
             bst (root_ (V1.run ops t)) /\
             (forall x : T, In x (Inorder (root_ (V1.run ops t))) ->
                            In x (Inorder (root_ t)) \/ In x (inserted_values ops))).
  { clear ops. induction ops as [|o ops IH]; intros t Hb.
    - simpl. auto.
    - change (V1.run (o :: ops) t) with (V1.run ops (V1.step t o)).
      destruct (step_keeps_ordering t o Hb) as [Hb1 Hin1].
      destruct (IH _ Hb1) as [Hb2 Hin2].
      split; [exact Hb2|].
      intros x Hx. rewrite inserted_values_cons.
      destruct (Hin2 x Hx) as [H1|H1]; [|tauto].
      destruct (Hin1 x H1); tauto. }
  destruct (H ops BSTree_new I) as [Hb Hin].
  split; [exact Hb|]. split; [now apply bst_Inorder_sorted|].
  intros x Hx. destruct (Hin x Hx) as [[]|H1]. exact H1.
Qed.

(** ** A pool never leaves its blocks *)

Lemma Pool_Allocate_mono (pool pool' : Memory_Pool) (p : ptr) (x : slot) :
  Pool_Allocate pool = Ret (p, pool') -> is_slot pool x -> is_slot pool' x.
Proof.
  unfold Pool_Allocate, Allocate_Block, is_slot. intros Ha Hx.
  destruct (free_list_ pool) as [s|] eqn:Ef.
  - simpl in Ha. rewrite Ef in Ha.
    destruct (next_of (blocks_ pool) s); [|discriminate].
    injection Ha as _ <-. exact Hx.
  - destruct (block_count_ pool) as [|last]; [discriminate|].
    cbn [obind free_list_ blocks_ block_count_ block_size_] in Ha.
    match type of Ha with
    | match ?X with Some _ => _ | None => _ end = _ => destruct X; [|discriminate]
    end.
    injection Ha as _ <-. cbn [blocks_]. now apply is_Some_next_of_app.
Qed.

Lemma pool_run_safe (ops : list pool_op) :
  forall (handed : list ptr) (pool : Memory_Pool),
    pool_wf pool ->
    Forall (fun p => exists s : slot, p = Some s /\ is_slot pool s) handed ->
    frees_allocated ops (length handed) = true ->
    exists (handed' : list ptr) (pool' : Memory_Pool),
      pool_run ops handed pool = Ret (handed', pool') /\
      pool_wf pool' /\
      Forall (fun p => exists s : slot, p = Some s /\ is_slot pool' s) handed'.
Proof.
  induction ops as [|o ops IH]; intros handed pool Hwf Hh Hfree.
  - exists handed, pool. auto.
  - destruct o as [|i]; cbn [pool_run frees_allocated] in *.
    + destruct (Pool_Allocate_wf pool Hwf) as (s & pool1 & Ha & Hs & Hwf1 & _).
      rewrite Ha. simpl. apply IH; [exact Hwf1| |].
      * rewrite Forall_app, Forall_singleton. split; [|eauto].
        eapply Forall_impl; [exact Hh|].
        intros p (s' & -> & Hs'). exists s'. split; [reflexivity|].
        exact (Pool_Allocate_mono _ _ _ _ Ha Hs').
      * rewrite length_app. simpl. now rewrite Nat.add_1_r.
    + apply andb_true_iff in Hfree. destruct Hfree as [Hi Hfree].
      apply Nat.ltb_lt in Hi. apply lookup_lt_is_Some in Hi. destruct Hi as [p Hp].
      unfold ptr in *. rewrite Hp.
      rewrite Forall_forall in Hh.
      destruct (Hh p (list_elem_of_lookup_2 _ _ _ Hp)) as (s & -> & Hs).
      destruct (Pool_Deallocate_slot pool s Hs) as (pool1 & Hd & _ & _ & Hwf1).
      rewrite Hd. simpl. apply IH; [now apply Hwf1| |exact Hfree].
      apply Forall_forall. intros q Hq.
      destruct (Hh q Hq) as (s' & -> & Hs'). exists s'. split; [reflexivity|].
      unfold Pool_Deallocate in Hd. destruct Hs as [q0 Hq0]. rewrite Hq0 in Hd.
      injection Hd as <-. unfold is_slot in *. cbn [blocks_].
      now apply is_Some_next_of_set_next.
Qed.

(** A pool built by its constructor and used only with pointers it handed
    out never reads or writes outside its blocks: every sequence of
    [Allocate()] and [Deallocate(p)] calls in which each [p] was returned
    by an earlier [Allocate()] of the sequence, in any order and also more
    than once, returns normally at every call, and every pointer handed out
    is the address of a slot of the pool. *)
Theorem constructed_pool_is_memory_safe
    (sizeof_T : Z) (block_count : nat) (pool : Memory_Pool) (ops : list pool_op) :
  Memory_Pool_new sizeof_T block_count = Ret pool ->
  frees_allocated ops 0 = true ->
  exists (handed : list ptr) (pool' : Memory_Pool),
    pool_run ops [] pool = Ret (handed, pool') /\
    pool_wf pool' /\
    Forall (fun p => exists s : slot, p = Some s /\ is_slot pool' s) handed.
Proof.
  intros Hnew Hfree.
  apply (pool_run_safe ops [] pool); [|constructor|exact Hfree].
  exact (Memory_Pool_new_wf sizeof_T block_count pool Hnew).
Qed.

Lemma constructed_pool_is_memory_safe_witness :
  Memory_Pool_new 8 2 = Ret (mkPool None [] 8 2) /\
  frees_allocated [PAllocate; PAllocate; PDeallocate 0; PDeallocate 0; PAllocate;
                   PAllocate; PAllocate; PDeallocate 4] 0 = true /\
  exists (handed : list ptr) (pool' : Memory_Pool),
    pool_run [PAllocate; PAllocate; PDeallocate 0; PDeallocate 0; PAllocate;
              PAllocate; PAllocate; PDeallocate 4] [] (mkPool None [] 8 2) =
      Ret (handed, pool').
Proof.
  assert (H1 : Memory_Pool_new 8 2 = Ret (mkPool None [] 8 2)) by reflexivity.
  assert (H2 : frees_allocated [PAllocate; PAllocate; PDeallocate 0; PDeallocate 0;
                                PAllocate; PAllocate; PAllocate; PDeallocate 4] 0 = true)
    by reflexivity.
  split; [exact H1|]. split; [exact H2|].
  destruct (constructed_pool_is_memory_safe 8 2 _ _ H1 H2) as (handed & pool' & Hr & _).
  exists handed, pool'. exact Hr.
Defined.

Lemma Find_min_is_begin_witness :
  bst (Node 5 (Node 3 nullptr nullptr 0) (Node 8 nullptr nullptr 0) 0) /\
  exists (dm : T) (rm : NodePtr) (cm : Z) (tl : list T),
    Find_min (Node 5 (Node 3 nullptr nullptr 0) (Node 8 nullptr nullptr 0) 0) =
      Ret (Node dm nullptr rm cm) /\
    Forall (fun x => dm < x) tl.
Proof.
  assert (H : bst (Node 5 (Node 3 nullptr nullptr 0) (Node 8 nullptr nullptr 0) 0)).
  { simpl. repeat split; repeat constructor; lia. }
  split; [exact H|].
  destruct (Find_min_is_begin 5 (Node 3 nullptr nullptr 0) (Node 8 nullptr nullptr 0) 0)
    as (dm & rm & cm & tl & Hf & _ & _ & Hmin).
  exists dm, rm, cm, tl. split; [exact Hf|exact (Hmin H)].
Defined.
